(* ===================================================================== *)
(* Bayesian optimisation with a Gaussian-process surrogate               *)
(* (src/bayesian_optimization.py): squared-exponential kernel, GP        *)
(* posterior, the three acquisition functions and the sampling loop.     *)
(*                                                                       *)
(* Numbers.  A NumPy float64 is modelled by an exact real: finite values *)
(* are elements of R and arithmetic on them does not round or overflow.  *)
(* The IEEE special values that the acquisition functions can produce    *)
(* (division by zero, square root of a negative number) are kept, in the *)
(* type npfloat.  Signed zeros are not distinguished.  An equation       *)
(* between values is therefore one up to rounding; a statement that a    *)
(* value is not 0, that a matrix is invertible or that a score is finite *)
(* is one of exact arithmetic: float64 absorbs 1e-18 in 1, underflows    *)
(* exp(-800) to 0 and rounds exp(-5e-19) to 1.                           *)
(*                                                                       *)
(* Arrays.  A one-dimensional ndarray is a seq; a two-dimensional one of *)
(* shape (m, n) is a MathComp matrix 'M_(m, n), so that shapes with a    *)
(* zero dimension (no observation yet) are ordinary values.              *)
(*                                                                       *)
(* Exceptions.  A Python call either returns or raises: result A.        *)
(* ===================================================================== *)

From HB Require Import structures.
From mathcomp Require Import boot algebra.
From Stdlib Require Import Reals Lra ClassicalEpsilon FunctionalExtensionality.
From Stdlib Require String DecimalString.

Set Implicit Arguments.
Unset Strict Implicit.
Unset Printing Implicit Defensive.

Import GRing.Theory.

(* %Re: the operations of the Standard Library on R; %R: those of the
   MathComp structures. *)
Delimit Scope R_scope with Re.
Delimit Scope ring_scope with R.
Delimit Scope nat_scope with N.

(* ===================================================================== *)
(* 1. The reals of the Standard Library as a MathComp field              *)
(* ===================================================================== *)

Module RealField.

Definition Req_bool (x y : R) : bool :=
  if Req_dec_T x y then true else false.

Lemma Req_boolP : Equality.axiom Req_bool.
Proof. by move=> x y; rewrite /Req_bool; case: Req_dec_T => h; constructor. Qed.

HB.instance Definition _ := hasDecEq.Build R Req_boolP.

Section Choice.
Variable P : pred R.

Definition Rfind (n : nat) : option R :=
  match excluded_middle_informative (exists x, P x) with
  | left ex => Some (proj1_sig (constructive_indefinite_description _ ex))
  | right _ => None
  end.

Lemma Rfind_sound n x : Rfind n = Some x -> P x.
Proof.
rewrite /Rfind; case: excluded_middle_informative => // ex [<-].
exact: (proj2_sig (constructive_indefinite_description _ ex)).
Qed.

Lemma Rfind_complete : (exists x, P x) -> exists n, Rfind n.
Proof.
by move=> ex; exists 0%N; rewrite /Rfind; case: excluded_middle_informative.
Qed.

End Choice.

Lemma Rfind_ext (P Q : pred R) : P =1 Q -> Rfind P =1 Rfind Q.
Proof. by move=> ePQ n; rewrite (functional_extensionality P Q ePQ). Qed.

HB.instance Definition _ :=
  hasChoice.Build R Rfind_sound Rfind_complete Rfind_ext.

Lemma RplusA : associative Rplus.
Proof. by move=> x y z; rewrite Rplus_assoc. Qed.

Lemma RmultA : associative Rmult.
Proof. by move=> x y z; rewrite Rmult_assoc. Qed.

HB.instance Definition _ :=
  GRing.isZmodule.Build R RplusA Rplus_comm Rplus_0_l Rplus_opp_l.

Lemma R1_neq0 : R1 != R0.
Proof. by apply/eqP; exact: R1_neq_R0. Qed.

HB.instance Definition _ := GRing.Zmodule_isComNzRing.Build R
  RmultA Rmult_comm Rmult_1_l Rmult_plus_distr_r R1_neq0.

Lemma RmultVr (x : R) : x != 0%Re -> (/ x * x)%Re = 1%Re.
Proof. by move/eqP => nz; apply: Rinv_l. Qed.

HB.instance Definition _ := GRing.ComNzRing_isField.Build R RmultVr Rinv_0.

End RealField.
Export RealField.

(* The ring operations of the MathComp structure on R are those of the
   Standard Library; these equations bring a goal back to them.          *)
Lemma RaddE (x y : R) : (x + y)%R = (x + y)%Re. Proof. by []. Qed.
Lemma RmulE (x y : R) : (x * y)%R = (x * y)%Re. Proof. by []. Qed.
Lemma RoppE (x : R) : (- x)%R = (- x)%Re. Proof. by []. Qed.
Lemma RinvE (x : R) : (x^-1)%R = (/ x)%Re. Proof. by []. Qed.
Lemma R0E : @GRing.zero R = 0%Re. Proof. by []. Qed.
Lemma R1E : @GRing.one R = 1%Re. Proof. by []. Qed.

Lemma RexpE (x : R) (n : nat) : (x ^+ n)%R = (x ^ n)%Re.
Proof.
by elim: n => [|n IH] //; rewrite exprS IH RmulE.
Qed.

Lemma RnatE (n : nat) : (n%:R)%R = INR n :> R.
Proof.
elim: n => [|n IH] //; rewrite -addn1 natrD IH plus_INR /= RaddE.
by rewrite -[(1%:R)%R]/(1%Re).
Qed.

Ltac eq_at_R :=
  repeat match goal with
  | |- context [@eq ?T ?a ?b] =>
      lazymatch T with
      | R => fail
      | _ => progress change (@eq T a b) with (@eq R a b)
      end
  end.

Ltac toR :=
  rewrite ?RexpE ?RnatE ?RaddE ?RmulE ?RoppE ?RinvE ?R0E ?R1E; eq_at_R.

Definition Rltb (x y : R) : bool := if Rlt_dec x y then true else false.
Definition Rleb (x y : R) : bool := if Rle_dec x y then true else false.

Lemma RltbP (x y : R) : reflect (x < y)%Re (Rltb x y).
Proof. by rewrite /Rltb; case: Rlt_dec => h; constructor. Qed.

Lemma RlebP (x y : R) : reflect (x <= y)%Re (Rleb x y).
Proof. by rewrite /Rleb; case: Rle_dec => h; constructor. Qed.

(* ===================================================================== *)
(* 2. Python outcomes                                                    *)
(* ===================================================================== *)

(* The exceptions that the NumPy calls of the source can raise.  *)
Inductive exn : Type :=
  | LinAlgError    (* numpy.linalg.inv on a singular matrix          *)
  | ValueError     (* shape mismatch in @, reduction of an empty array *)
  | IndexError.    (* index out of range                              *)

Inductive result (A : Type) : Type :=
  | Ok (a : A)
  | Raise (e : exn).
Arguments Ok {A} a.
Arguments Raise {A} e.

Definition ret {A} (a : A) : result A := Ok a.

Definition bind {A B} (c : result A) (k : A -> result B) : result B :=
  match c with
  | Ok a => k a
  | Raise e => Raise e
  end.

Declare Scope py_scope.
Delimit Scope py_scope with py.
Notation "x <- c ;; k" := (bind c (fun x => k))
  (at level 61, c at next level, right associativity) : py_scope.
Notation "' p <- c ;; k" := (bind c (fun x => let p := x in k))
  (at level 61, p pattern, c at next level, right associativity) : py_scope.

Definition raises {A} (c : result A) : Prop := exists e, c = Raise e.
Definition returns {A} (c : result A) : Prop := exists a, c = Ok a.

Lemma returns_not_raises {A} (c : result A) : returns c -> ~ raises c.
Proof. by case=> a ->; case. Qed.

(* ===================================================================== *)
(* 3. float64 values with the IEEE special values                        *)
(* ===================================================================== *)

Inductive npfloat : Type :=
  | Fin (r : R)   (* a finite value, exact *)
  | PInf          (* +inf *)
  | NInf          (* -inf *)
  | NaN.

Definition is_nan (x : npfloat) : bool :=
  if x is NaN then true else false.

(* x + y *)
Definition fadd (x y : npfloat) : npfloat :=
  match x, y with
  | NaN, _ | _, NaN => NaN
  | Fin a, Fin b => Fin (a + b)%Re
  | PInf, NInf | NInf, PInf => NaN
  | PInf, _ | _, PInf => PInf
  | NInf, _ | _, NInf => NInf
  end.

(* The sign of x * y or x / y when one operand is infinite. *)
Definition signed_inf (negative : bool) : npfloat :=
  if negative then NInf else PInf.

(* x * y *)
Definition fmul (x y : npfloat) : npfloat :=
  match x, y with
  | NaN, _ | _, NaN => NaN
  | Fin a, Fin b => Fin (a * b)%Re
  | Fin a, PInf | PInf, Fin a =>
      if a == 0%Re then NaN else signed_inf (Rltb a 0)
  | Fin a, NInf | NInf, Fin a =>
      if a == 0%Re then NaN else signed_inf (~~ Rltb a 0)
  | PInf, PInf | NInf, NInf => PInf
  | PInf, NInf | NInf, PInf => NInf
  end.

(* x / y: NumPy does not raise on a zero divisor, it returns inf or nan
   (with a RuntimeWarning). *)
Definition fdiv (x y : npfloat) : npfloat :=
  match x, y with
  | NaN, _ | _, NaN => NaN
  | Fin a, Fin b =>
      if b == 0%Re then
        if a == 0%Re then NaN else signed_inf (Rltb a 0)
      else Fin (a / b)%Re
  | Fin _, (PInf | NInf) => Fin 0
  | PInf, Fin b => signed_inf (Rltb b 0)
  | NInf, Fin b => signed_inf (~~ Rltb b 0)
  | (PInf | NInf), (PInf | NInf) => NaN
  end.

(* numpy.sqrt on a finite value: nan below zero. *)
Definition np_sqrt (r : R) : npfloat :=
  if Rltb r 0 then NaN else Fin (sqrt r).

(* x <= y in IEEE arithmetic: false as soon as one side is nan. *)
Definition fle (x y : npfloat) : bool :=
  match x, y with
  | NaN, _ | _, NaN => false
  | NInf, _ | _, PInf => true
  | Fin a, Fin b => Rleb a b
  | _, _ => false
  end.

(* scipy.stats.norm.pdf and scipy.stats.norm.cdf: the density and the
   distribution function of the standard normal law. *)
Definition std_pdf (z : R) : R := (exp (- (z * z) / 2) / sqrt (2 * PI))%Re.

Lemma std_pdf_continuous (z : R) : continuity_pt std_pdf z.
Proof.
have dz : derivable_pt std_pdf z by rewrite /std_pdf; reg.
exact: derivable_continuous_pt dz.
Qed.

Definition std_pdf_integrable (a b : R) : Riemann_integrable std_pdf a b :=
  match Rle_dec a b with
  | left le_ab =>
      continuity_implies_RiemannInt le_ab (fun x _ => std_pdf_continuous x)
  | right nle_ab =>
      RiemannInt_P1
        (continuity_implies_RiemannInt
           (Rlt_le _ _ (Rnot_le_lt _ _ nle_ab))
           (fun x _ => std_pdf_continuous x))
  end.

(* Phi z = 1/2 + the integral of the density from 0 to z. *)
Definition std_cdf (z : R) : R :=
  (1 / 2 + RiemannInt (std_pdf_integrable 0 z))%Re.

Definition norm_pdf (z : npfloat) : npfloat :=
  match z with
  | Fin r => Fin (std_pdf r)
  | PInf | NInf => Fin 0
  | NaN => NaN
  end.

Definition norm_cdf (z : npfloat) : npfloat :=
  match z with
  | Fin r => Fin (std_cdf r)
  | PInf => Fin 1
  | NInf => Fin 0
  | NaN => NaN
  end.

(* ===================================================================== *)
(* 4. The NumPy operations that the source calls                         *)
(* ===================================================================== *)

Local Open Scope ring_scope.
Local Open Scope py_scope.

Section Numpy.

(* xx, yy = numpy.meshgrid(x, y): both of shape (len y, len x), with
   xx[i, j] = x[j] and yy[i, j] = y[i]. *)
Definition meshgrid (x y : seq R) :
    'M[R]_(size y, size x) * 'M[R]_(size y, size x) :=
  (\matrix_(i, j) nth 0%Re x j, \matrix_(i, j) nth 0%Re y i).

(* numpy.eye(n) *)
Definition eye (n : nat) : 'M[R]_n := 1%:M.

(* numpy.linalg.inv: the inverse, or LinAlgError (Singular matrix).  The
   test is that of exact arithmetic, on the exact matrix; LAPACK meets a
   zero pivot on the rounded one. *)
Definition inv (n : nat) (A : 'M[R]_n) : result 'M[R]_n :=
  if A \in unitmx then Ok (invmx A) else Raise LinAlgError.

Definition vec_of_seq (n : nat) (v : seq R) : 'cV[R]_n := \col_i nth 0%Re v i.

Definition seq_of_vec (n : nat) (u : 'cV[R]_n) : seq R :=
  [seq u i 0 | i <- enum 'I_n].

(* A @ v for a two-dimensional A and a one-dimensional v. *)
Definition matvec (m n : nat) (A : 'M[R]_(m, n)) (v : seq R) :
    result (seq R) :=
  if size v == n then Ok (seq_of_vec (A *m vec_of_seq n v))
  else Raise ValueError.

(* numpy.diag of a square matrix *)
Definition diag (n : nat) (A : 'M[R]_n) : seq R :=
  [seq A i i | i <- enum 'I_n].

(* numpy.max of a one-dimensional array of finite values *)
Definition np_max (s : seq R) : result R :=
  if s is x :: s' then Ok (foldl Rmax x s') else Raise ValueError.

(* numpy.argmax on float64: the scan of NumPy's DOUBLE_argmax.  mp is the
   running maximum, at index max_ind; a later element replaces it unless
   it is <= mp; a nan, once met, is kept. *)
Fixpoint argmax_scan (mp : npfloat) (max_ind i : nat) (s : seq npfloat) :
    nat :=
  match s with
  | [::] => max_ind
  | x :: s' =>
      if is_nan mp then max_ind
      else if fle x mp then argmax_scan mp max_ind i.+1 s'
      else argmax_scan x i i.+1 s'
  end.

Definition argmax (s : seq npfloat) : result nat :=
  if s is x :: s' then Ok (argmax_scan x 0 1 s') else Raise ValueError.

(* xs[k] for a non-negative index k *)
Definition getitem (xs : seq R) (k : nat) : result R :=
  if (k < size xs)%N then Ok (nth 0%Re xs k) else Raise IndexError.

(* numpy.append(X, x) returns a new array. *)
Definition np_append (X : seq R) (x : R) : seq R := rcons X x.

(* numpy.linspace(start, stop, num): arange(num) * step + start, the last
   element then set to stop. *)
Definition linspace (start stop : R) (num : nat) : seq R :=
  let step := ((stop - start) / INR num.-1)%Re in
  let y := mkseq (fun i => (INR i * step + start)%Re) num in
  if (1 < num)%N then set_nth 0%Re y num.-1 stop else y.

(* Elementwise binary operation on two one-dimensional arrays of the same
   length. *)
Definition map2 {A B C : Type} (f : A -> B -> C) (s : seq A) (t : seq B) :
    seq C :=
  [seq f p.1 p.2 | p <- zip s t].

(* x ** y for x >= 0 (0 ** 0 is 1, 0 ** y is 0 for y > 0), which is
   where the script takes it: at the seed, drawn from [0, 10), and on the
   grid.  For x < 0 NumPy gives nan unless y is an integer; that case is
   not modelled. *)
Definition np_power (x y : R) : R :=
  if x == 0%Re then (if y == 0%Re then 1%Re else 0%Re) else Rpower x y.

(* [f(a) for a in s] *)
Fixpoint for_each {A B : Type} (f : A -> result B) (s : seq A) :
    result (seq B) :=
  match s with
  | [::] => ret [::]
  | a :: s' => b <- f a ;; bs <- for_each f s' ;; ret (b :: bs)
  end.

End Numpy.

(* ===================================================================== *)
(* 5. The source                                                         *)
(* ===================================================================== *)

(* bounds=[0,10] *)
Definition bounds : R * R := (0, 10)%Re.

(* def mix_function(x, noise): np.random.normal(0, noise) raises
   ValueError for a negative scale; the variate it returns is bound to
   the local name noise and never used, so that the value is a function
   of x alone.  (Section 9 keeps the draw.) *)
Definition mix_function (x noise : R) : result R :=
  if Rltb noise 0 then Raise ValueError
  else
    let y := (sin (x * x) - np_power x (2 * sin x))%Re in
    ret y.

Definition objective_function (x noise : R) : result R :=
  y <- mix_function x noise ;;
  ret (- y)%Re.

(* def rbf_kernel(x1, x2, sigma=1).  For sigma = 0 NumPy divides by zero
   and fills the matrix with 0 and nan without raising; a matrix of reals
   has no such entries, and the statements on the values of the kernel
   are made for sigma <> 0. *)
Definition rbf_kernel (x1 x2 : seq R) (sigma : R) :
    result 'M[R]_(size x1, size x2) :=
  let '(xx, yy) := meshgrid x2 x1 in
  let rbf :=
    map_mx exp
      (map_mx (fun d => (- (d ^ 2) / (2 * sigma ^ 2))%Re) (xx - yy)) in
  ret rbf.

(* def fitted_gaus(X, prev_x, prev_y, noise); every kernel call uses the
   default sigma=1. *)
Definition fitted_gaus (X prev_x prev_y : seq R) (noise : R) :
    result (seq R * 'M[R]_(size X)) :=
  k_bb <- rbf_kernel prev_x prev_x 1 ;;
  let sigma_bb := k_bb + (noise ^ 2)%Re *: eye (size prev_x) in
  sigma_aa <- rbf_kernel X X 1 ;;
  sigma_ba <- rbf_kernel prev_x X 1 ;;
  sigma_ab <- rbf_kernel X prev_x 1 ;;
  sigma_bb_inv <- inv sigma_bb ;;
  mean_a <- matvec (sigma_ab *m sigma_bb_inv) prev_y ;;
  let cov_a := sigma_aa - (sigma_ab *m sigma_bb_inv *m sigma_ba) in
  ret (mean_a, cov_a).

(* def exp_imp(X, prev_x, prev_y, noise, epcilon) *)
Definition exp_imp (X prev_x prev_y : seq R) (noise epcilon : R) :
    result (seq npfloat) :=
  '(means, cov_mat) <- fitted_gaus X prev_x prev_y noise ;;
  '(prev_means, _) <- fitted_gaus prev_x prev_x prev_y noise ;;
  let sds := map np_sqrt (diag cov_mat) in
  best_mean <- np_max prev_means ;;
  let imp := [seq Fin (m - best_mean - epcilon)%Re | m <- means] in
  let Z := map2 fdiv imp sds in
  ret (map2 fadd (map2 fmul imp (map norm_cdf Z))
                 (map2 fmul sds (map norm_pdf Z))).

(* def prob_imp(X, prev_x, prev_y, noise, epsilon) *)
Definition prob_imp (X prev_x prev_y : seq R) (noise epsilon : R) :
    result (seq npfloat) :=
  '(means, cov_mat) <- fitted_gaus X prev_x prev_y noise ;;
  '(prev_means, _) <- fitted_gaus prev_x prev_x prev_y noise ;;
  let sds := map np_sqrt (diag cov_mat) in
  best_mean <- np_max prev_means ;;
  let Z := map2 fdiv [seq Fin (m - best_mean - epsilon)%Re | m <- means]
                     [seq fadd s (Fin (1 / 10 ^ 9)%Re) | s <- sds] in
  ret (map norm_cdf Z).

(* def upper_conf_bound(X, prev_x, prev_y, noise, kappa) *)
Definition upper_conf_bound (X prev_x prev_y : seq R) (noise kappa : R) :
    result (seq npfloat) :=
  '(means, cov_mat) <- fitted_gaus X prev_x prev_y noise ;;
  let sds := map np_sqrt (diag cov_mat) in
  let ucb := map2 fadd (map Fin means) (map (fmul (Fin kappa)) sds) in
  ret ucb.

(* def show_plot(X, Y, noise, ...): the drawing is left out; what remains
   is what can raise, the noise-free objective and the posterior on the
   100-point grid. *)
Definition show_plot (X Y : seq R) (noise : R) : result unit :=
  let xs := linspace bounds.1 bounds.2 100 in
  ys <- for_each (fun x => objective_function x 0) xs ;;
  '(means, cov_mat) <- fitted_gaus xs X Y noise ;;
  ret tt.

(* The common calling shape of exp_imp, prob_imp and upper_conf_bound. *)
Definition acquisition : Type :=
  seq R -> seq R -> seq R -> R -> R -> result (seq npfloat).

(* The values that the script passes as new_x to save_plot: None, a
   float64, or the array X. *)
Inductive pyval : Type :=
  | PyNone
  | PyFloat (x : R)
  | PyArray (a : seq R).

Fixpoint for_range (body : nat -> seq R * seq R -> result (seq R * seq R))
    (range : seq nat) (st : seq R * seq R) : result (seq R * seq R) :=
  match range with
  | [::] => ret st
  | i :: range' => st' <- body i st ;; for_range body range' st'
  end.

(* n = 20 #iterations *)
Definition n : nat := 20.

Section Script.

(* bool(np.array([])): False, with a DeprecationWarning, in the older
   releases of NumPy and ValueError in the later ones. *)
Variable empty_array_truth : result bool.

(* The truth value that `if new_x:` takes. *)
Definition truth (v : pyval) : result bool :=
  match v with
  | PyNone => Ok false
  | PyFloat x => Ok (x != 0)
  | PyArray [::] => empty_array_truth
  | PyArray [:: x] => Ok (x != 0)
  | PyArray _ => Raise ValueError
  end.

(* def save_plot(X, Y, noise, ..., new_x, i): show_plot, then the test
   `if new_x:` before the frame is written. *)
Definition save_plot (X Y : seq R) (noise : R) (new_x : pyval) :
    result unit :=
  _ <- show_plot X Y noise ;;
  t <- truth new_x ;;
  ret tt.

(* The body of `for i in range(n+3):`, the same in the three loops of the
   script up to the acquisition function; the state is the pair of the
   globals X and Y. *)
Definition loop_body (acq : acquisition) (noise param : R) (i : nat)
    (st : seq R * seq R) : result (seq R * seq R) :=
  let: (X, Y) := st in
  if i == 0%N then _ <- save_plot [::] [::] noise PyNone ;; ret st
  else if i == 1%N then _ <- save_plot [::] [::] noise PyNone ;; ret st
  else if i == 2%N then _ <- save_plot [::] [::] noise PyNone ;; ret st
  else if i == 3%N then _ <- save_plot X Y noise (PyArray X) ;; ret st
  else
    let xs := linspace bounds.1 bounds.2 100 in
    probas <- acq xs X Y noise param ;;
    k <- argmax probas ;;
    new_x <- getitem xs k ;;
    let X' := np_append X new_x in
    new_y <- objective_function new_x noise ;;
    let Y' := np_append Y new_y in
    _ <- save_plot X' Y' noise (PyFloat new_x) ;;
    ret (X', Y').

(* One of the three runs of the script, from the seed x0 drawn by
   np.random.uniform within bounds.  The last save_plot reads new_x,
   which the passes i >= 4 have bound to the last element of X. *)
Definition run (acq : acquisition) (noise param : R) (x0 : R) :
    result (seq R * seq R) :=
  let X := [:: x0] in
  Y <- for_each (fun x => objective_function x noise) X ;;
  st <- for_range (loop_body acq noise param) (iota 0 (n + 3)) (X, Y) ;;
  _ <- save_plot st.1 st.2 noise (PyFloat (last 0%Re st.1)) ;;
  ret st.

(* noise=.1, epcilon= .1 *)
Definition ei_run (x0 : R) : result (seq R * seq R) :=
  run exp_imp (1 / 10)%Re (1 / 10)%Re x0.

(* noise=.1, epcilon= 1 *)
Definition pi_run (x0 : R) : result (seq R * seq R) :=
  run prob_imp (1 / 10)%Re 1%Re x0.

(* noise=.1, kappa= 10 *)
Definition ucb_run (x0 : R) : result (seq R * seq R) :=
  run upper_conf_bound (1 / 10)%Re 10%Re x0.

End Script.

(* ===================================================================== *)
(* 6. The posterior in the words of the specification                    *)
(* ===================================================================== *)

(* K(x, x') = exp(-(x - x')^2 / (2 * lengthscale^2)) *)
Definition K (lengthscale x x' : R) : R :=
  exp (- ((x - x') ^ 2) / (2 * lengthscale ^ 2))%Re.

(* K(A, B), the matrix of the kernel over two sequences of points *)
Definition Kmx (A B : seq R) : 'M[R]_(size A, size B) :=
  \matrix_(i, j) K 1 (nth 0%Re A i) (nth 0%Re B j).

(* Sigma_oo = K(observed_x, observed_x) + noise_std^2 * I *)
Definition Sigma_oo (observed_x : seq R) (noise_std : R) :
    'M[R]_(size observed_x) :=
  \matrix_(i, j) (K 1 (nth 0%Re observed_x i) (nth 0%Re observed_x j)
                  + noise_std ^ 2 * (if i == j then 1 else 0))%Re.

(* mean = Sigma_qo . Sigma_oo^-1 . observed_y, entry by entry *)
Definition posterior_mean (query_points observed_x observed_y : seq R)
    (noise_std : R) (i : 'I_(size query_points)) : R :=
  \sum_(k < size observed_x) \sum_(l < size observed_x)
     Kmx query_points observed_x i k
     * invmx (Sigma_oo observed_x noise_std) k l
     * nth 0%Re observed_y l.
Arguments posterior_mean : clear implicits.

(* covariance = Sigma_qq - Sigma_qo . Sigma_oo^-1 . Sigma_oq *)
Definition posterior_cov (query_points observed_x : seq R) (noise_std : R)
    (i j : 'I_(size query_points)) : R :=
  Kmx query_points query_points i j
  - \sum_(k < size observed_x) \sum_(l < size observed_x)
       Kmx query_points observed_x i k
       * invmx (Sigma_oo observed_x noise_std) k l
       * Kmx observed_x query_points l j.
Arguments posterior_cov : clear implicits.


(* ===================================================================== *)
(* 7. The statements of the specification on scores, conditioning and    *)
(*    the arg-max                                                        *)
(* ===================================================================== *)

(* d Phi(Z) + sigma phi(Z) with Z = d / sigma: the shape shared by the
   Expected Improvement of the specification and that of the source,
   which differ in d. *)
Definition EI_formula (d : R) (sigma : npfloat) : npfloat :=
  let Z := fdiv (Fin d) sigma in
  fadd (fmul (Fin d) (norm_cdf Z)) (fmul sigma (norm_pdf Z)).

(* The table of the specification:
   (f* - mu - eps) Phi(Z) + sigma phi(Z), Z = (f* - mu - eps) / sigma. *)
Definition EI_spec (f_star mu : R) (sigma : npfloat) (eps : R) : npfloat :=
  EI_formula (f_star - mu - eps)%Re sigma.

(* m is the maximum of the values in s. *)
Definition is_max (m : R) (s : seq R) : Prop :=
  m \in s /\ forall x, x \in s -> (x <= m)%Re.

(* The posterior means at the observed points, the incumbent being their
   maximum. *)
Definition observed_means (observed_x observed_y : seq R) (noise_std : R) :
    seq R :=
  [seq posterior_mean observed_x observed_x observed_y noise_std k
  | k <- enum 'I_(size observed_x)].

(* Expected Improvement as the specification states it, on the posterior
   that fitted_gaus returns. *)
Definition exp_imp_spec (candidates observed_x observed_y : seq R)
    (noise_std eps : R) : result (seq npfloat) :=
  '(mean, covariance) <-
     fitted_gaus candidates observed_x observed_y noise_std ;;
  '(observed_mean, _) <-
     fitted_gaus observed_x observed_x observed_y noise_std ;;
  f_star <- np_max observed_mean ;;
  ret (map2 (fun mu v => EI_spec f_star mu (np_sqrt v) eps)
            mean (diag covariance)).

(* The infinity norm of a matrix and the condition number built on it,
   the measure of "ill-conditioned beyond a tolerance". *)
Definition norm_inf (n : nat) (A : 'M[R]_n) : R :=
  \big[Rmax/0%Re]_(i < n) \sum_(j < n) Rabs (A i j).

Definition cond_inf (n : nat) (A : 'M[R]_n) : R :=
  (norm_inf A * norm_inf (invmx A))%Re.

Definition numerically_unstable (tol : R) (n : nat) (A : 'M[R]_n) : Prop :=
  A \notin unitmx \/ (tol < cond_inf A)%Re.

(* The order in which numpy.argmax compares float64 values: the IEEE
   order on the values that are not nan, and nan above everything. *)
Definition np_le (x y : npfloat) : bool := is_nan y || fle x y.

(* k is the first index of s that holds a maximum of s. *)
Definition first_argmax (s : seq npfloat) (k : nat) : Prop :=
  [/\ (k < size s)%N,
      forall j, (j < size s)%N -> np_le (nth NaN s j) (nth NaN s k)
    & forall j, (j < k)%N -> ~~ np_le (nth NaN s k) (nth NaN s j)].

(* The objective at x: what objective_function returns whenever it
   returns, whatever the noise. *)
Definition objective_value (x : R) : R :=
  (- (sin (x * x) - np_power x (2 * sin x)))%Re.

(* The acquisition functions that the three loops of the script use. *)
Definition script_acquisition (acq : acquisition) : Prop :=
  [\/ acq = exp_imp, acq = prob_imp | acq = upper_conf_bound].

(* The candidate grid of every iteration: xs = np.linspace(0, 10, 100). *)
Definition grid : seq R := linspace bounds.1 bounds.2 100.

(* What every pass of the loop preserves: as many y as x, the seed x0
   first, and after it only points of the grid. *)
Definition seeded (x0 : R) (st : seq R * seq R) : Prop :=
  size st.1 = size st.2
  /\ exists appended,
       st.1 = x0 :: appended
       /\ forall x, x \in appended ->
            exists2 k, (k < 100)%N & x = nth 0%Re grid k.

(* The partial sums of the series of exp. *)
Definition exp_partial (t : R) (N : nat) : R :=
  \sum_(k < N.+1) (/ INR (Factorial.fact k) * t ^ k)%Re.

(* ===================================================================== *)
(* 8. Further notions on the values of the source                        *)
(* ===================================================================== *)

(* A float64 that is neither nan nor infinite. *)
Definition is_finite (x : npfloat) : bool :=
  if x is Fin _ then true else false.

(* ===================================================================== *)
(* 9. The source with its effects                                        *)
(* ===================================================================== *)

(* Section 5 keeps of the script what decides the samples and what can
   raise.  Here the same functions are written with what they do besides:
   the variates they draw from NumPy's global generator, the calls they
   make to pyplot and what they print.  The removal and creation of the
   frames directory before a loop and the two ffmpeg processes after it
   are left out. *)

(* -x and x - y on float64 *)
Definition fopp (x : npfloat) : npfloat :=
  match x with
  | Fin a => Fin (- a)%Re
  | PInf => NInf
  | NInf => PInf
  | NaN => NaN
  end.

Definition fsub (x y : npfloat) : npfloat := fadd x (fopp y).

(* The texts that the script formats. *)
Module Text.

Import String.

(* str(k) for an int k >= 0 *)
Definition str_of_nat (k : nat) : string :=
  DecimalString.NilEmpty.string_of_uint (Nat.to_uint k).

(* f"iter {k}" *)
Definition iter_title (k : nat) : string := append "iter " (str_of_nat k).

(* f"./frames/{i}.png" *)
Definition frame_path (i : nat) : string :=
  append "./frames/" (append (str_of_nat i) ".png").

End Text.

(* The calls to pyplot and to print, with the arguments that vary. *)
Inductive event : Type :=
  | Figure                              (* plt.figure(figsize=(5,4)) *)
  | PlotObjective (xs ys : seq R)       (* plt.plot(xs, ys, 'r--', ...) *)
  | ScatterObserved (X Y : seq R)       (* plt.scatter(X, Y, c="b", ...) *)
  | PlotMean (xs means : seq R)         (* plt.plot(xs, means, "y-", ...) *)
  | FillBetween (xs : seq R) (lower upper : seq npfloat)
                                        (* plt.fill_between(xs, ., ., ...) *)
  | Legend                              (* plt.legend(loc="best") *)
  | Ylim (bottom top : R)               (* plt.ylim([-5,5]) *)
  | Title (title : String.string)       (* plt.title(title) *)
  | Axvline (x : pyval)                 (* plt.axvline(new_x, ...) *)
  | Savefig (path : String.string)      (* plt.savefig(path, format='png') *)
  | Close                               (* plt.close(fig) *)
  | PrintSeed (X : seq R)               (* print(X) *)
  | PrintIteration (i : nat) (new_x : R)
                                        (* print(f"iteration {i}: {new_x}") *)
  | PrintResult (new_x : R).
               (* print("The objective function is maximized at: ", new_x) *)

Definition is_savefig (e : event) : option String.string :=
  if e is Savefig path then Some path else None.

Definition is_axvline (e : event) : bool :=
  if e is Axvline _ then true else false.

Definition is_legend (e : event) : bool :=
  if e is Legend then true else false.

Definition is_result (e : event) : option R :=
  if e is PrintResult new_x then Some new_x else None.

Module Eff.

(* What has happened so far: how many variates have been drawn from the
   generator, and the calls made to pyplot and to print, the latest
   last. *)
Record world : Type := World { drawn : nat; calls : seq event }.

(* A name that is read before it is bound raises NameError; the other
   exceptions are those of the NumPy calls. *)
Inductive failure : Type :=
  | NumPy (e : exn)
  | NameError.

Inductive outcome (A : Type) : Type :=
  | Done (a : A) (w : world)
  | Failed (f : failure).
Arguments Done {A} a w.
Arguments Failed {A} f.

Definition eff (A : Type) : Type := world -> outcome A.

Definition eret {A} (a : A) : eff A := fun w => Done a w.

Definition ebind {A B} (c : eff A) (k : A -> eff B) : eff B :=
  fun w =>
    match c w with
    | Done a w' => k a w'
    | Failed f => Failed f
    end.

Definition lift {A} (c : result A) : eff A :=
  fun w =>
    match c with
    | Ok a => Done a w
    | Raise e => Failed (NumPy e)
    end.

Definition fail {A} (f : failure) : eff A := fun _ => Failed f.

Definition emit (e : event) : eff unit :=
  fun w => Done tt (World (drawn w) (rcons (calls w) e)).

Declare Scope eff_scope.
Delimit Scope eff_scope with eff.
Notation "x <- c ;; k" := (ebind c (fun x => k))
  (at level 61, c at next level, right associativity) : eff_scope.
Notation "' p <- c ;; k" := (ebind c (fun x => let p := x in k))
  (at level 61, p pattern, c at next level, right associativity) : eff_scope.

Local Open Scope eff_scope.

(* [f(a) for a in s] *)
Fixpoint for_each {A B} (f : A -> eff B) (s : seq A) : eff (seq B) :=
  match s with
  | [::] => eret [::]
  | a :: s' => b <- f a ;; bs <- for_each f s' ;; eret (b :: bs)
  end.

Section Script.

(* The standard normal variates that the generator yields, in order. *)
Variable z : nat -> R.

(* bool(np.array([])): False, with a DeprecationWarning, in the older
   releases of NumPy and ValueError in the later ones. *)
Variable empty_array_truth : result bool.

(* np.random.normal(loc, scale): ValueError for a negative scale. *)
Definition normal (loc scale : R) : eff R :=
  fun w =>
    if Rltb scale 0 then Failed (NumPy ValueError)
    else Done (loc + scale * z (drawn w))%Re
              (World (drawn w).+1 (calls w)).

(* def mix_function(x, noise=noise) *)
Definition mix_function (x noise : R) : eff R :=
  noise <- normal 0 noise ;;
  let y := (sin (x * x) - np_power x (2 * sin x))%Re in
  eret y.

(* def objective_function(x, noise=noise) *)
Definition objective_function (x noise : R) : eff R :=
  y <- mix_function x noise ;;
  eret (- y)%Re.

(* def show_plot(X, Y, noise, title, obj, gaus, legend) *)
Definition show_plot (X Y : seq R) (noise : R) (title : String.string)
    (obj gaus legend : bool) : eff unit :=
  let xs := linspace bounds.1 bounds.2 100 in
  ys <- for_each (fun x => objective_function x 0) xs ;;
  '(means, cov_mat) <- lift (fitted_gaus xs X Y noise) ;;
  let sds := map np_sqrt (diag cov_mat) in
  _ <- (if obj then emit (PlotObjective xs ys) else eret tt) ;;
  _ <- (if gaus then
          _ <- emit (ScatterObserved X Y) ;;
          _ <- emit (PlotMean xs means) ;;
          emit (FillBetween xs
                  (map2 fsub (map Fin means) (map (fmul (Fin 2)) sds))
                  (map2 fadd (map Fin means) (map (fmul (Fin 2)) sds)))
        else eret tt) ;;
  _ <- (if legend then emit Legend else eret tt) ;;
  _ <- emit (Ylim (- 5)%Re 5%Re) ;;
  emit (Title title).

(* def save_plot(X, Y, noise, title, obj, gaus, legend, new_x, i): the
   call to show_plot does not pass legend on, so that show_plot takes its
   default, True. *)
Definition save_plot (X Y : seq R) (noise : R) (title : String.string)
    (obj gaus legend : bool) (new_x : pyval) (i : nat) : eff unit :=
  _ <- emit Figure ;;
  _ <- show_plot X Y noise title obj gaus true ;;
  t <- lift (truth empty_array_truth new_x) ;;
  _ <- (if t then emit (Axvline new_x) else eret tt) ;;
  _ <- emit (Savefig (Text.frame_path i)) ;;
  emit Close.

(* The globals that a loop assigns: X, Y and new_x, which is not bound
   before the first pass that samples. *)
Definition globals : Type := (seq R * seq R * option R)%type.

(* The body of `for i in range(n+3):`. *)
Definition loop_body (acq : acquisition) (noise param : R) (i : nat)
    (st : globals) : eff globals :=
  let: (X, Y, _) := st in
  if i == 0%N then
    _ <- save_plot [::] [::] noise String.EmptyString true false true
           PyNone i ;;
    eret st
  else if i == 1%N then
    _ <- save_plot [::] [::] noise String.EmptyString true true true
           PyNone i ;;
    eret st
  else if i == 2%N then
    _ <- save_plot [::] [::] noise (Text.iter_title (i - 2)) false true true
           PyNone i ;;
    eret st
  else if i == 3%N then
    _ <- save_plot X Y noise (Text.iter_title (i - 2)) false true true
           (PyArray X) i ;;
    eret st
  else
    let xs := linspace bounds.1 bounds.2 100 in
    probas <- lift (acq xs X Y noise param) ;;
    k <- lift (argmax probas) ;;
    new_x <- lift (getitem xs k) ;;
    _ <- emit (PrintIteration i new_x) ;;
    let X' := np_append X new_x in
    new_y <- objective_function new_x noise ;;
    let Y' := np_append Y new_y in
    _ <- save_plot X' Y' noise (Text.iter_title (i - 1)) false true true
           (PyFloat new_x) i ;;
    eret (X', Y', Some new_x).

(* for i in range: ...; the loop variable keeps its last value. *)
Fixpoint for_range (body : nat -> globals -> eff globals) (range : seq nat)
    (i : option nat) (st : globals) : eff (option nat * globals) :=
  match range with
  | [::] => eret (i, st)
  | j :: range' => st' <- body j st ;; for_range body range' (Some j) st'
  end.

(* One of the three runs of the script, from the seed x0 to the line
   that reports the result.  The third run prints X before its loop
   (print_seed), the first two do not. *)
Definition run (acq : acquisition) (noise param : R) (print_seed : bool)
    (x0 : R) : eff (seq R * seq R) :=
  let X := [:: x0] in
  Y <- for_each (fun x => objective_function x noise) X ;;
  _ <- (if print_seed then emit (PrintSeed X) else eret tt) ;;
  '(i, (X, Y, new_x)) <-
     for_range (loop_body acq noise param) (iota 0 (n + 3)) None
       (X, Y, None) ;;
  match i, new_x with
  | Some i, Some new_x =>
      _ <- save_plot X Y noise (Text.iter_title (i - 2)) true true true
             (PyFloat new_x) i ;;
      _ <- emit (PrintResult new_x) ;;
      eret (X, Y)
  | _, _ => fail NameError
  end.

(* noise=.1, epcilon= .1 *)
Definition ei_run (x0 : R) : eff (seq R * seq R) :=
  run exp_imp (1 / 10)%Re (1 / 10)%Re false x0.

(* noise=.1, epcilon= 1 *)
Definition pi_run (x0 : R) : eff (seq R * seq R) :=
  run prob_imp (1 / 10)%Re 1%Re false x0.

(* noise=.1, kappa= 10; print(X) *)
Definition ucb_run (x0 : R) : eff (seq R * seq R) :=
  run upper_conf_bound (1 / 10)%Re 10%Re true x0.

End Script.

End Eff.

(* The paths that the calls to savefig have written, in order. *)
Definition saved (w : Eff.world) : seq String.string :=
  pmap is_savefig (Eff.calls w).

(* What the runs have reported as the point where the objective is
   maximized, in order. *)
Definition reported (w : Eff.world) : seq R :=
  pmap is_result (Eff.calls w).

(* The world after k more draws and the calls es. *)
Definition advance (k : nat) (es : seq event) (w : Eff.world) : Eff.world :=
  Eff.World (Eff.drawn w + k) (Eff.calls w ++ es).

(* The calls that show_plot makes once the posterior is there. *)
Definition show_events (X Y : seq R) (means : seq R)
    (cov_mat : 'M[R]_(size (linspace bounds.1 bounds.2 100)))
    (title : String.string) (obj gaus legend : bool) : seq event :=
  let xs := linspace bounds.1 bounds.2 100 in
  let sds := map np_sqrt (diag cov_mat) in
  (if obj then
     [:: PlotObjective xs [seq objective_value x | x <- xs]]
   else [::])
  ++ (if gaus then
        [:: ScatterObserved X Y; PlotMean xs means;
            FillBetween xs
              (map2 fsub (map Fin means) (map (fmul (Fin 2)) sds))
              (map2 fadd (map Fin means) (map (fmul (Fin 2)) sds))]
      else [::])
  ++ (if legend then [:: Legend] else [::])
  ++ [:: Ylim (- 5)%Re 5%Re; Title title].

(* The calls of one frame. *)
Definition frame_events (shown : seq event) (line : bool) (new_x : pyval)
    (i : nat) : seq event :=
  Figure :: shown
  ++ (if line then [:: Axvline new_x] else [::])
  ++ [:: Savefig (Text.frame_path i); Close].


(* ===================================================================== *)
(* 10. Basic facts                                                       *)
(* ===================================================================== *)

Section KernelFacts.

Lemma K_sym (l x x' : R) : K l x x' = K l x' x.
Proof. by rewrite /K; congr (exp (_ / _)); ring. Qed.

Lemma K_diag (l x : R) : K l x x = 1%Re.
Proof.
rewrite /K -[RHS]exp_0; congr exp.
by rewrite /Rdiv Rminus_diag /=; ring.
Qed.

Lemma rbf_kernelE (x1 x2 : seq R) (sigma : R) :
  rbf_kernel x1 x2 sigma
  = Ok (\matrix_(i, j) K sigma (nth 0%Re x1 i) (nth 0%Re x2 j)).
Proof.
rewrite /rbf_kernel /meshgrid /ret; congr Ok.
apply/matrixP => i j; rewrite !mxE /K; congr (exp (_ / _)).
by toR; ring.
Qed.

Lemma rbf_kernel1E (x1 x2 : seq R) : rbf_kernel x1 x2 1 = Ok (Kmx x1 x2).
Proof. exact: rbf_kernelE. Qed.

Lemma Kmx_tr (A B : seq R) : (Kmx A B)^T = Kmx B A.
Proof. by apply/matrixP => i j; rewrite !mxE K_sym. Qed.

End KernelFacts.

Section PosteriorFacts.

Lemma sigma_bbE (prev_x : seq R) (noise : R) :
  Kmx prev_x prev_x + (noise ^ 2)%Re *: eye (size prev_x)
  = Sigma_oo prev_x noise.
Proof.
apply/matrixP => i j; rewrite !mxE; toR.
by case: (i == j) => /=; toR.
Qed.

Lemma mean_entryE (X prev_x prev_y : seq R) (noise : R) (i : 'I_(size X)) :
  (Kmx X prev_x *m invmx (Sigma_oo prev_x noise)
     *m vec_of_seq (size prev_x) prev_y) i 0
  = posterior_mean X prev_x prev_y noise i.
Proof.
rewrite /posterior_mean mxE exchange_big /=; apply: eq_bigr => l _.
by rewrite !mxE big_distrl.
Qed.

Lemma cov_entryE (X prev_x : seq R) (noise : R) (i j : 'I_(size X)) :
  (Kmx X X - Kmx X prev_x *m invmx (Sigma_oo prev_x noise) *m Kmx prev_x X)
    i j
  = posterior_cov X prev_x noise i j.
Proof.
rewrite /posterior_cov 3!mxE exchange_big /=; congr (_ - _).
by rewrite mxE; apply: eq_bigr => l _; rewrite !mxE big_distrl.
Qed.

(* What fitted_gaus does, case by case. *)
Lemma fitted_gausE (X prev_x prev_y : seq R) (noise : R) :
  fitted_gaus X prev_x prev_y noise =
  if Sigma_oo prev_x noise \in unitmx then
    if size prev_y == size prev_x then
      Ok ([seq posterior_mean X prev_x prev_y noise i | i <- enum 'I_(size X)],
          \matrix_(i, j) posterior_cov X prev_x noise i j)
    else Raise ValueError
  else Raise LinAlgError.
Proof.
rewrite /fitted_gaus !rbf_kernel1E /= sigma_bbE /inv.
case: ifP => // unit_oo /=; rewrite /matvec.
case: ifP => // _ /=; rewrite /ret; congr (Ok (_, _)).
  by rewrite /seq_of_vec; apply: eq_map => i; rewrite mean_entryE.
by apply/matrixP => i j; rewrite cov_entryE mxE.
Qed.

End PosteriorFacts.


(* ===================================================================== *)
(* 11. The squared-exponential kernel is positive semi-definite          *)
(* ===================================================================== *)

Section FiniteSums.

Lemma sum_Rge0 (I : Type) (r : seq I) (P : pred I) (F : I -> R) :
  (forall i, P i -> (0 <= F i)%Re) -> (0 <= \sum_(i <- r | P i) F i)%Re.
Proof.
move=> F_ge0; elim/big_rec: _ => [|i x Pi x_ge0]; first exact: Rle_refl.
by toR; apply: Rplus_le_le_0_compat => //; exact: F_ge0.
Qed.

Lemma sum_f_R0_big (f : nat -> R) (N : nat) :
  sum_f_R0 f N = \sum_(k < N.+1) f k.
Proof.
elim: N => [|N IH]; first by rewrite big_ord_recl big_ord0 addr0.
by rewrite big_ord_recr /= -IH.
Qed.

Lemma Un_cv_ext (u v : nat -> R) (l : R) :
  u =1 v -> Un_cv u l -> Un_cv v l.
Proof.
move=> uv cv eps eps_gt0; have [N hN] := cv eps eps_gt0.
by exists N => n le_Nn; rewrite -uv; exact: hN.
Qed.

Lemma Un_cv_const (c : R) : Un_cv (fun _ => c) c.
Proof.
move=> eps eps_gt0; exists 0%N => n _.
by rewrite /Rdist Rminus_diag Rabs_R0.
Qed.

Lemma Un_cv_sum (I : Type) (r : seq I) (F : I -> nat -> R) (L : I -> R) :
  (forall i, Un_cv (F i) (L i)) ->
  Un_cv (fun N => \sum_(i <- r) F i N) (\sum_(i <- r) L i).
Proof.
move=> cvF; elim: r => [|i r IH].
  rewrite big_nil; apply: Un_cv_ext (Un_cv_const 0) => N.
  by rewrite big_nil.
rewrite big_cons; apply: Un_cv_ext (CV_plus _ _ _ _ (cvF i) IH) => N.
by rewrite big_cons.
Qed.

Lemma Un_cv_scale (c : R) (u : nat -> R) (l : R) :
  Un_cv u l -> Un_cv (fun N => c * u N) (c * l).
Proof. by move=> cv; exact: (CV_mult _ _ _ _ (Un_cv_const c) cv). Qed.

Lemma Un_cv_ge0 (u : nat -> R) (l : R) :
  (forall N, (0 <= u N)%Re) -> Un_cv u l -> (0 <= l)%Re.
Proof.
move=> u_ge0 cv.
apply: (@Rle_cv_lim (fun _ => 0%Re) u 0%Re l) => //.
exact: Un_cv_const.
Qed.

End FiniteSums.

Section PositiveSemiDefinite.

Lemma exp_partial_cv (t : R) : Un_cv (exp_partial t) (exp t).
Proof.
apply: Un_cv_ext (proj2_sig (exist_exp t)) => N.
exact: sum_f_R0_big.
Qed.

Lemma K1_split (x y : R) :
  K 1 x y = (exp (- (x * x) / 2) * exp (- (y * y) / 2) * exp (x * y))%Re.
Proof. by rewrite /K -!exp_plus; congr exp; field. Qed.

Variables (n : nat) (x w : 'I_n -> R).

(* With the series cut at N the quadratic form is a sum of squares. *)
Lemma quadratic_partial (N : nat) :
  \sum_i \sum_j w i * w j * exp_partial (x i * x j)%Re N
  = \sum_(k < N.+1)
       (/ INR (Factorial.fact k))%Re * (\sum_i w i * (x i ^ k)%Re) ^+ 2.
Proof.
rewrite /exp_partial.
under eq_bigr => i _.
  under eq_bigr => j _ do rewrite big_distrr /=.
  rewrite exchange_big /=; over.
rewrite exchange_big /=; apply: eq_bigr => k _.
rewrite expr2 big_distrlr /= big_distrr /=; apply: eq_bigr => i _.
rewrite big_distrr /=; apply: eq_bigr => j _.
by toR; rewrite Rpow_mult_distr; ring.
Qed.

Lemma quadratic_partial_ge0 (N : nat) :
  (0 <= \sum_i \sum_j w i * w j * exp_partial (x i * x j)%Re N)%Re.
Proof.
rewrite quadratic_partial; apply: sum_Rge0 => k _; toR.
apply: Rmult_le_pos; last exact: pow2_ge_0.
by apply/Rlt_le/Rinv_0_lt_compat/INR_fact_lt_0.
Qed.

Lemma quadratic_exp_ge0 :
  (0 <= \sum_i \sum_j w i * w j * exp (x i * x j)%Re)%Re.
Proof.
apply: Un_cv_ge0 quadratic_partial_ge0 _.
apply: Un_cv_sum => i; apply: Un_cv_sum => j.
exact/Un_cv_scale/exp_partial_cv.
Qed.

End PositiveSemiDefinite.

(* v^T K(A, A) v >= 0 *)
Lemma Kmx_psd (A : seq R) (v : 'I_(size A) -> R) :
  (0 <= \sum_i \sum_j v i * v j * Kmx A A i j)%Re.
Proof.
pose a i := nth 0%Re A (i : 'I_(size A)).
pose w i := (v i * exp (- (a i * a i) / 2))%Re.
have := quadratic_exp_ge0 a w; congr (0 <= _)%Re.
apply: eq_bigr => i _; apply: eq_bigr => j _.
by rewrite mxE K1_split /w -/(a i) -/(a j); toR; ring.
Qed.

Section PositiveDefinite.

Lemma sum_sq_eq0 (n : nat) (f : 'I_n -> R) :
  \sum_i f i ^+ 2 = 0 -> forall i, f i = 0.
Proof.
move=> sum0 i; move: sum0; rewrite (bigD1 i) //=.
set rest := \sum_(j < n | j != i) _ => sum0.
have rest_ge0 : (0 <= rest)%Re.
  by apply: sum_Rge0 => j _; toR; exact: pow2_ge_0.
have fi_ge0 : (0 <= f i ^ 2)%Re by exact: pow2_ge_0.
have fi0 : (f i ^ 2 = 0)%Re by move: sum0; toR => sum0; Lra.lra.
by move: fi0 => /= /Rmult_integral [] // /Rmult_integral [] //; Lra.lra.
Qed.

Variables (A : seq R) (noise : R).

Lemma Sigma_oo_entry (i j : 'I_(size A)) :
  Sigma_oo A noise i j = Kmx A A i j + (noise ^ 2)%Re * (i == j)%:R.
Proof. by rewrite !mxE; case: (i == j). Qed.

Lemma Sigma_oo_quadratic (v : 'I_(size A) -> R) :
  \sum_i \sum_j v i * v j * Sigma_oo A noise i j
  = \sum_i \sum_j v i * v j * Kmx A A i j
    + (noise ^ 2)%Re * \sum_i v i ^+ 2.
Proof.
rewrite big_distrr /= -big_split /=; apply: eq_bigr => i _.
under eq_bigr => j _ do rewrite Sigma_oo_entry mulrDr.
rewrite big_split /=; congr (_ + _).
rewrite (bigD1 i) //= big1 => [j ne_ji|].
  by rewrite eq_sym (negbTE ne_ji) !mulr0.
by rewrite addr0 eqxx mulr1; toR; ring.
Qed.

Lemma Sigma_oo_unit : noise <> 0 -> Sigma_oo A noise \in unitmx.
Proof.
move=> noise_neq0; rewrite -row_free_unit -kermx_eq0.
apply/eqP/row_matrixP => i; rewrite row0.
set u := row i _.
have uS : u *m Sigma_oo A noise = 0 by rewrite -row_mul mulmx_ker row0.
have q0 : \sum_k \sum_l u 0 k * u 0 l * Sigma_oo A noise k l = 0.
  rewrite exchange_big /=; apply: big1 => l _.
  under eq_bigr => k _ do rewrite mulrAC.
  rewrite -big_distrl /=.
  have -> : \sum_k u 0 k * Sigma_oo A noise k l = (u *m Sigma_oo A noise) 0 l.
    by rewrite mxE.
  by rewrite uS mxE mul0r.
have := Kmx_psd (u 0); move: q0; rewrite Sigma_oo_quadratic.
set P := \sum_k \sum_l _; set S := \sum_k _ => q0 P_ge0.
have S_ge0 : (0 <= S)%Re by apply: sum_Rge0 => k _; toR; exact: pow2_ge_0.
have n2_gt0 : (0 < noise ^ 2)%Re.
  have := pow2_ge_0 noise; have := pow_nonzero noise 2 noise_neq0; Lra.lra.
have S0 : S = 0.
  move: q0; toR => q0.
  have := Rmult_le_pos _ _ (Rlt_le _ _ n2_gt0) S_ge0 => nS_ge0.
  have nS0 : (noise ^ 2 * S = 0)%Re by Lra.lra.
  by case/Rmult_integral: nS0 => // n20; Lra.lra.
apply/rowP => k; rewrite [RHS]mxE.
exact: (sum_sq_eq0 S0).
Qed.

End PositiveDefinite.

(* ===================================================================== *)
(* The values of the kernel for any lengthscale                          *)
(* ===================================================================== *)

Section KernelValues.

Variable sigma : R.
Hypothesis sigma_neq0 : sigma <> 0.

Lemma two_sigma2_gt0 : (0 < 2 * sigma ^ 2)%Re.
Proof.
have := pow2_ge_0 sigma; have := pow_nonzero sigma 2 sigma_neq0.
by Lra.lra.
Qed.

Lemma K_gt0 (x y : R) : (0 < K sigma x y)%Re.
Proof. exact: exp_pos. Qed.

Lemma K_mono (x y x' y' : R) :
  (Rabs (x - y) <= Rabs (x' - y'))%Re -> (K sigma x' y' <= K sigma x y)%Re.
Proof.
move=> le_d; have s_gt0 := two_sigma2_gt0.
have le_sq : ((x - y) ^ 2 <= (x' - y') ^ 2)%Re.
  rewrite -(pow2_abs (x - y)) -(pow2_abs (x' - y')).
  by apply: pow_incr; split=> //; exact: Rabs_pos.
have le_arg : (- (x' - y') ^ 2 / (2 * sigma ^ 2)
               <= - (x - y) ^ 2 / (2 * sigma ^ 2))%Re.
  rewrite /Rdiv; apply: Rmult_le_compat_r; last by Lra.lra.
  exact/Rlt_le/Rinv_0_lt_compat.
rewrite /K; case: le_arg => [lt_arg|->]; last exact: Rle_refl.
exact/Rlt_le/exp_increasing.
Qed.

Lemma K_le1 (x y : R) : (K sigma x y <= 1)%Re.
Proof.
rewrite -(K_diag sigma x); apply: K_mono.
by rewrite Rminus_diag Rabs_R0; exact: Rabs_pos.
Qed.

Lemma K_eq1 (x y : R) : K sigma x y = 1%Re <-> x = y.
Proof.
split=> [|->]; last exact: K_diag.
rewrite /K -[RHS]exp_0 => /exp_inv arg0.
have s_gt0 := two_sigma2_gt0.
have inv_gt0 := Rinv_0_lt_compat _ s_gt0.
have sq0 : ((x - y) ^ 2 = 0)%Re.
  by case/Rmult_integral: arg0 => eq0; Lra.lra.
have d0 : (x - y = 0)%Re.
  by case: (Req_dec (x - y) 0) => // /(pow_nonzero _ 2); rewrite sq0.
by Lra.lra.
Qed.

(* K with lengthscale sigma is K with lengthscale 1 on the points divided
   by sigma. *)
Lemma K_rescale (x y : R) : K sigma x y = K 1 (x / sigma) (y / sigma).
Proof. by rewrite /K; congr exp; field. Qed.

End KernelValues.

(* v^T K v >= 0 for the Gram matrix of any points and any lengthscale. *)
Lemma K_psd (sigma : R) (m : nat) (a v : 'I_m -> R) :
  sigma <> 0 ->
  (0 <= \sum_i \sum_j v i * v j * K sigma (a i) (a j))%Re.
Proof.
move=> sigma_neq0.
pose b i := (a i / sigma)%Re.
pose w i := (v i * exp (- (b i * b i) / 2))%Re.
have := quadratic_exp_ge0 b w; congr (0 <= _)%Re.
apply: eq_bigr => i _; apply: eq_bigr => j _.
by rewrite (K_rescale sigma_neq0) K1_split -/(b i) -/(b j) /w; toR; ring.
Qed.

(* ===================================================================== *)
(* Pairwise distinct points: the kernel matrix is positive definite      *)
(* ===================================================================== *)

(* The kernel matrix of pairwise distinct points is positive definite:
   if the quadratic form vanishes, every moment sum_i w_i x_i^k of the
   weights vanishes, hence every sum_i w_i p(x_i) for a polynomial p, and
   the polynomial that vanishes at all the points but x_i gives w_i = 0. *)
Section DistinctPoints.

Variables (m : nat) (x w : 'I_m -> R).

Let S (N : nat) : R :=
  \sum_i \sum_j w i * w j * exp_partial (x i * x j)%Re N.

Let term (k : nat) : R :=
  (/ INR (Factorial.fact k))%Re * (\sum_i w i * (x i ^ k)%Re) ^+ 2.

Lemma term_ge0 (k : nat) : (0 <= term k)%Re.
Proof.
rewrite /term; toR; apply: Rmult_le_pos; last exact: pow2_ge_0.
by apply/Rlt_le/Rinv_0_lt_compat/INR_fact_lt_0.
Qed.

Lemma quadratic_partial_step (N : nat) : S N = \sum_(k < N) term k + term N.
Proof. by rewrite /S quadratic_partial big_ord_recr. Qed.

Lemma quadratic_partial_growing : Un_growing S.
Proof.
move=> N; rewrite (quadratic_partial_step N.+1) -/(term N.+1).
have -> : \sum_(k < N.+1) term k = S N by rewrite /S quadratic_partial.
by have := term_ge0 N.+1; toR; Lra.lra.
Qed.

Lemma quadratic_partial_cv :
  Un_cv S (\sum_i \sum_j w i * w j * exp (x i * x j)%Re).
Proof.
apply: Un_cv_sum => i; apply: Un_cv_sum => j.
exact/Un_cv_scale/exp_partial_cv.
Qed.

Hypothesis quadratic0 : \sum_i \sum_j w i * w j * exp (x i * x j)%Re = 0.

Lemma moments_eq0 (k : nat) : \sum_i w i * (x i ^ k)%Re = 0.
Proof.
have S_le0 N : (S N <= 0)%Re.
  rewrite -[X in (_ <= X)%Re]quadratic0.
  exact: growing_ineq quadratic_partial_growing quadratic_partial_cv N.
have := S_le0 k; rewrite quadratic_partial_step.
have T_ge0 : (0 <= \sum_(k' < k) term k')%Re.
  by apply: sum_Rge0 => k' _; exact: term_ge0.
have := term_ge0 k; toR => t_ge0 sum_le0.
have : term k = 0 by move: t_ge0 sum_le0 T_ge0; toR; Lra.lra.
rewrite /term; toR => /Rmult_integral [inv0|].
  by have := Rinv_0_lt_compat _ (INR_fact_lt_0 k); Lra.lra.
by move=> /= /Rmult_integral [] // /Rmult_integral [] //; Lra.lra.
Qed.

Lemma polynomial_eq0 (p : {poly R}) : \sum_i w i * p.[x i] = 0.
Proof.
under eq_bigr => i _ do rewrite horner_coef big_distrr /=.
rewrite exchange_big /=; apply: big1 => k _.
under eq_bigr => i _ do rewrite mulrCA.
by rewrite -big_distrr /=; under eq_bigr => i _ do rewrite RexpE;
   rewrite moments_eq0 mulr0.
Qed.

Hypothesis x_inj : injective x.

Lemma weights_eq0 (i : 'I_m) : w i = 0.
Proof.
pose p : {poly R} := \prod_(j < m | j != i) ('X - (x j)%:P).
have p_other j : j != i -> p.[x j] = 0.
  move=> ne_ji; rewrite /p horner_prod (bigD1 j) //=.
  by rewrite hornerXsubC subrr mul0r.
have p_at_i : p.[x i] != 0.
  rewrite /p horner_prod; apply/prodf_neq0 => j ne_ji.
  rewrite hornerXsubC subr_eq0; apply/eqP => /x_inj eq_ij.
  by rewrite eq_ij eqxx in ne_ji.
have := polynomial_eq0 p; rewrite (bigD1 i) //= big1 => [j ne_ji|].
  by rewrite p_other // mulr0.
by rewrite addr0 => /eqP; rewrite mulf_eq0 (negbTE p_at_i) orbF => /eqP.
Qed.

End DistinctPoints.

Section NoiselessInvertible.

Variable A : seq R.

Let Sigma_oo_0 : Sigma_oo A 0 = Kmx A A.
Proof. by apply/matrixP => i j; rewrite !mxE /=; ring. Qed.

(* v^T K(A, A) v = 0 only for v = 0. *)
Lemma Kmx_pd (v : 'I_(size A) -> R) :
  uniq A -> \sum_k \sum_l v k * v l * Kmx A A k l = 0 -> forall k, v k = 0.
Proof.
move=> uniq_A q0 k.
pose a (l : 'I_(size A)) := nth 0%Re A l.
pose w (l : 'I_(size A)) : R := v l * exp (- (a l * a l) / 2)%Re.
have a_inj : injective a.
  move=> l l' /eqP; rewrite /a nth_uniq // => /eqP eq_ll'.
  exact: val_inj.
have w0 : \sum_l \sum_l' w l * w l' * exp (a l * a l')%Re = 0.
  rewrite -[RHS]q0; apply: eq_bigr => l _; apply: eq_bigr => l' _.
  by rewrite [Kmx _ _ _ _]mxE K1_split /w -/(a l) -/(a l'); toR; ring.
have := weights_eq0 w0 a_inj k; rewrite /w; toR => /Rmult_integral [] //.
by have := exp_pos (- (a k * a k) / 2); Lra.lra.
Qed.

(* Without noise Sigma_oo is invertible as soon as the observed points are
   pairwise distinct ... *)
Lemma Sigma_oo_unit_uniq : uniq A -> Sigma_oo A 0 \in unitmx.
Proof.
move=> uniq_A; rewrite -row_free_unit -kermx_eq0.
apply/eqP/row_matrixP => i; rewrite row0.
set u := row i _.
have uS : u *m Sigma_oo A 0 = 0 by rewrite -row_mul mulmx_ker row0.
have q0 : \sum_k \sum_l u 0 k * u 0 l * Kmx A A k l = 0.
  rewrite exchange_big /=; apply: big1 => l _.
  under eq_bigr => k _ do rewrite mulrAC.
  rewrite -big_distrl /=.
  have -> : \sum_k u 0 k * Kmx A A k l = (u *m Sigma_oo A 0) 0 l.
    by rewrite Sigma_oo_0 mxE.
  by rewrite uS mxE mul0r.
by apply/rowP => k; rewrite [RHS]mxE; exact: (Kmx_pd uniq_A q0).
Qed.

(* ... and singular as soon as two of them coincide: two equal rows. *)
Lemma Sigma_oo_singular_dup : ~~ uniq A -> Sigma_oo A 0 \notin unitmx.
Proof.
case/(uniqPn 0%Re) => i [j [lt_ij lt_j eq_ij]].
have lt_i : (i < size A)%N by exact: ltn_trans lt_ij lt_j.
rewrite unitmxE unitfE negbK; apply/eqP.
apply: (@determinant_alternate _ _ _ (Ordinal lt_i) (Ordinal lt_j)) => [|k].
  by rewrite -val_eqE /= neq_ltn lt_ij.
by rewrite Sigma_oo_0 !mxE /= eq_ij.
Qed.

End NoiselessInvertible.

(* Sigma_oo is invertible unless there is no noise and two observed points
   coincide. *)
Lemma Sigma_oo_unitE (A : seq R) (noise : R) :
  (Sigma_oo A noise \in unitmx) = (noise != 0) || uniq A.
Proof.
case: (noise =P 0) => [->|/Sigma_oo_unit ->] //=.
case uniq_A : (uniq A); first exact: Sigma_oo_unit_uniq.
by apply/negbTE/Sigma_oo_singular_dup; rewrite uniq_A.
Qed.


(* ===================================================================== *)
(* 12. The posterior                                                     *)
(* ===================================================================== *)

Section PosteriorShape.

Lemma nth_ord_map (n : nat) (f : 'I_n -> R) (i : 'I_n) :
  nth 0%Re [seq f k | k <- enum 'I_n] i = f i.
Proof. by rewrite (nth_map i) ?nth_ord_enum // size_enum_ord. Qed.

Lemma size_ord_map (T : Type) (n : nat) (f : 'I_n -> T) :
  size [seq f k | k <- enum 'I_n] = n.
Proof. by rewrite size_map size_enum_ord. Qed.

Lemma Sigma_oo_sym (A : seq R) (noise : R) :
  (Sigma_oo A noise)^T = Sigma_oo A noise.
Proof.
by apply/matrixP => i j; rewrite !mxE K_sym eq_sym.
Qed.

Lemma posterior_cov_sym (X prev_x : seq R) (noise : R) (i j : 'I_(size X)) :
  posterior_cov X prev_x noise i j = posterior_cov X prev_x noise j i.
Proof.
rewrite -!cov_entryE; set M := _ - _.
have symM : M^T = M.
  rewrite /M linearB /= !trmx_mul trmx_inv Sigma_oo_sym !Kmx_tr.
  by rewrite mulmxA.
by rewrite -[in LHS]symM mxE.
Qed.

Lemma unitmx00 (A : 'M[R]_0) : A \in unitmx.
Proof. by rewrite unitmxE det_mx00 unitr1. Qed.

End PosteriorShape.

(** C1: for a non-empty observation set with as many y as x, and the
    regularised observation covariance Sigma_oo = K(observed_x, observed_x)
    + noise_std^2 I invertible (so that Sigma_oo^-1 exists), fitted_gaus
    returns mean = Sigma_qo Sigma_oo^-1 observed_y and covariance =
    Sigma_qq - Sigma_qo Sigma_oo^-1 Sigma_oq, entry by entry, where
    Sigma_oo^-1 is the two-sided inverse of Sigma_oo. *)
Theorem C1_posterior_closed_form
    (query_points observed_x observed_y : seq R) (noise_std : R) :
  size observed_x = size observed_y ->
  (0 < size observed_x)%N ->
  Sigma_oo observed_x noise_std \in unitmx ->
  let Sigma_oo_inv := invmx (Sigma_oo observed_x noise_std) in
  exists mean cov,
    [/\ fitted_gaus query_points observed_x observed_y noise_std
          = Ok (mean, cov),
        Sigma_oo observed_x noise_std *m Sigma_oo_inv = 1%:M
        /\ Sigma_oo_inv *m Sigma_oo observed_x noise_std = 1%:M,
        size mean = size query_points,
        forall i : 'I_(size query_points),
          nth 0%Re mean i
          = \sum_(k < size observed_x) \sum_(l < size observed_x)
              Kmx query_points observed_x i k * Sigma_oo_inv k l
              * nth 0%Re observed_y l
      & forall i j : 'I_(size query_points),
          cov i j
          = Kmx query_points query_points i j
            - \sum_(k < size observed_x) \sum_(l < size observed_x)
                Kmx query_points observed_x i k * Sigma_oo_inv k l
                * Kmx observed_x query_points l j].
Proof.
move=> eq_size _ unit_oo /=.
rewrite fitted_gausE unit_oo -eq_size eqxx.
eexists; eexists; split; first by [].
- by rewrite mulmxV ?mulVmx.
- exact: size_ord_map.
- by move=> i; rewrite nth_ord_map.
- by move=> i j; rewrite mxE.
Qed.

Lemma C1_witness :
  [/\ size [:: 0%Re] = size [:: 1%Re], (0 < size [:: 0%Re])%N
    & Sigma_oo [:: 0%Re] 1 \in unitmx]
  /\ exists mean cov,
       fitted_gaus [:: 0%Re; 1%Re] [:: 0%Re] [:: 1%Re] 1 = Ok (mean, cov).
Proof.
have unit1 : Sigma_oo [:: 0%Re] 1 \in unitmx.
  by apply: Sigma_oo_unit; exact: R1_neq_R0.
split; first by split.
have [mean [cov [eq_post _ _ _ _]]] :=
  @C1_posterior_closed_form [:: 0%Re; 1%Re] [:: 0%Re] [:: 1%Re] 1
    (erefl _) (erefl _) unit1.
by exists mean, cov.
Defined.

(** C3: with no observation, fitted_gaus does not raise; it returns the
    all-zero mean and, as covariance, the matrix that rbf_kernel returns
    on the query points. *)
Theorem C3_zero_observations (query_points : seq R) (noise_std : R) :
  exists cov,
    [/\ fitted_gaus query_points [::] [::] noise_std
          = Ok (nseq (size query_points) 0, cov),
        rbf_kernel query_points query_points 1 = Ok cov
      & forall i j, cov i j = K 1 (nth 0%Re query_points i) (nth 0%Re query_points j)].
Proof.
exists (Kmx query_points query_points); split; last by move=> i j; rewrite mxE.
  rewrite fitted_gausE unitmx00 /=; congr (Ok (_, _)).
    apply: (@eq_from_nth _ 0) => [|i]; first by rewrite size_ord_map size_nseq.
    rewrite size_ord_map => lt_i; rewrite (nth_ord_map _ (Ordinal lt_i)).
    by rewrite nth_nseq lt_i /posterior_mean big_ord0.
  apply/matrixP => i j; rewrite mxE /posterior_cov big_ord0.
  exact: Rminus_0_r.
exact: rbf_kernel1E.
Qed.




(* In exact arithmetic the posterior variances are not negative: with
   w = Sigma_qo Sigma_oo^-1, the variance at a query point q is
   v^T K v + noise^2 |w|^2 for the kernel matrix K of q and the observed
   points and v = (1, -w). *)
Section PosteriorVariance.

Variables (X prev_x : seq R) (noise : R) (i : 'I_(size X)).
Hypothesis unit_oo : Sigma_oo prev_x noise \in unitmx.

Let a : 'rV[R]_(size prev_x) := row i (Kmx X prev_x).
Let w : 'rV[R]_(size prev_x) := a *m invmx (Sigma_oo prev_x noise).

Lemma posterior_var_weights :
  posterior_cov X prev_x noise i i = (1 - \sum_l w 0 l * a 0 l)%Re.
Proof.
rewrite /posterior_cov mxE K_diag exchange_big /=; congr (_ - _)%Re.
apply: eq_bigr => l _; rewrite [w 0 l]mxE big_distrl /=.
by apply: eq_bigr => k _; rewrite /a !mxE [K 1 (nth _ prev_x l) _]K_sym.
Qed.

Lemma weights_quadratic :
  \sum_l \sum_l' w 0 l * w 0 l' * Sigma_oo prev_x noise l l'
  = \sum_l w 0 l * a 0 l.
Proof.
have wS : w *m Sigma_oo prev_x noise = a by rewrite /w mulmxKV.
rewrite exchange_big /=; apply: eq_bigr => l' _.
have -> : a 0 l' = \sum_l w 0 l * Sigma_oo prev_x noise l l'.
  by rewrite -[in LHS]wS mxE.
by rewrite big_distrr /=; apply: eq_bigr => l _; toR; ring.
Qed.

Let q : R := nth 0%Re X i.

Let v (j : 'I_(size prev_x).+1) : R :=
  if unlift ord0 j is Some l then - w 0 l else 1.

Lemma extended_quadratic :
  \sum_(j < size (q :: prev_x)) \sum_(j' < size (q :: prev_x))
     v j * v j' * Kmx (q :: prev_x) (q :: prev_x) j j'
  = 1 - \sum_l w 0 l * a 0 l - \sum_l w 0 l * a 0 l
    + \sum_l \sum_l' w 0 l * w 0 l' * Kmx prev_x prev_x l l'.
Proof.
have v0 : v ord0 = 1 by rewrite /v unlift_none.
have vS l : v (lift ord0 l) = - w 0 l by rewrite /v liftK.
have K00 : Kmx (q :: prev_x) (q :: prev_x) ord0 ord0 = 1.
  by rewrite mxE K_diag.
have K0S l : Kmx (q :: prev_x) (q :: prev_x) ord0 (lift ord0 l) = a 0 l.
  by rewrite /a !mxE.
have KS0 l : Kmx (q :: prev_x) (q :: prev_x) (lift ord0 l) ord0 = a 0 l.
  by rewrite /a !mxE K_sym.
have KSS l l' :
    Kmx (q :: prev_x) (q :: prev_x) (lift ord0 l) (lift ord0 l')
    = Kmx prev_x prev_x l l'.
  by rewrite !mxE.
rewrite big_ord_recl big_ord_recl v0 K00.
under eq_bigr => l' _ do rewrite vS K0S.
under [X in _ + X]eq_bigr => l _.
  rewrite big_ord_recl vS v0 KS0.
  under eq_bigr => l' _ do rewrite vS KSS.
  over.
rewrite /= big_split /=.
have -> : \sum_l' 1 * - w 0 l' * a 0 l' = - \sum_l w 0 l * a 0 l.
  by rewrite -sumrN; apply: eq_bigr => l _; toR; ring.
have -> : \sum_l - w 0 l * 1 * a 0 l = - \sum_l w 0 l * a 0 l.
  by rewrite -sumrN; apply: eq_bigr => l _; toR; ring.
have -> : \sum_l \sum_l' - w 0 l * - w 0 l' * Kmx prev_x prev_x l l'
          = \sum_l \sum_l' w 0 l * w 0 l' * Kmx prev_x prev_x l l'.
  by apply: eq_bigr => l _; apply: eq_bigr => l' _; toR; ring.
set T := \sum_l w 0 l * a 0 l.
set Q := \sum_l \sum_l' _.
by rewrite !mul1r; toR; ring.
Qed.

(* The posterior variance is at least noise^2 |w|^2. *)
Lemma posterior_var_ge0 : (0 <= posterior_cov X prev_x noise i i)%Re.
Proof.
have psd := Kmx_psd (A := q :: prev_x) v.
have := @Sigma_oo_quadratic prev_x noise (w 0).
rewrite weights_quadratic => split_oo.
have sq_ge0 : (0 <= \sum_l w 0 l ^+ 2)%Re.
  by apply: sum_Rge0 => l _; toR; exact: pow2_ge_0.
have n2_ge0 := pow2_ge_0 noise.
have := Rmult_le_pos _ _ n2_ge0 sq_ge0.
move: psd split_oo; rewrite extended_quadratic posterior_var_weights.
by toR => psd split_oo noise_ge0; Lra.lra.
Qed.

(* Conditioning does not raise the variance above the prior's K(q, q) = 1. *)
Lemma posterior_var_le1 : (posterior_cov X prev_x noise i i <= 1)%Re.
Proof.
have psd := Kmx_psd (A := prev_x) (w 0).
have := @Sigma_oo_quadratic prev_x noise (w 0).
rewrite weights_quadratic => split_oo.
have sq_ge0 : (0 <= \sum_l w 0 l ^+ 2)%Re.
  by apply: sum_Rge0 => l _; toR; exact: pow2_ge_0.
have n2_ge0 := pow2_ge_0 noise.
have := Rmult_le_pos _ _ n2_ge0 sq_ge0.
move: psd split_oo; rewrite posterior_var_weights.
by toR => psd split_oo noise_ge0; Lra.lra.
Qed.

(* With observation noise the variance is never 0. *)
Lemma posterior_var_gt0 :
  noise <> 0 -> (0 < posterior_cov X prev_x noise i i)%Re.
Proof.
move=> noise_neq0.
have psd := Kmx_psd (A := q :: prev_x) v.
have := @Sigma_oo_quadratic prev_x noise (w 0).
rewrite weights_quadratic => split_oo.
have sq_ge0 : (0 <= \sum_l w 0 l ^+ 2)%Re.
  by apply: sum_Rge0 => l _; toR; exact: pow2_ge_0.
have n2_gt0 : (0 < noise ^ 2)%Re.
  by have := pow2_ge_0 noise; have := pow_nonzero noise 2 noise_neq0; Lra.lra.
case: (Req_dec (\sum_l w 0 l ^+ 2) 0) => [sq0|sq_neq0].
  have w0 l : w 0 l = 0 by exact: (sum_sq_eq0 sq0).
  rewrite posterior_var_weights big1 => [l _|]; first by rewrite w0 mul0r.
  by toR; Lra.lra.
have sq_gt0 : (0 < \sum_l w 0 l ^+ 2)%Re by move: sq_ge0 sq_neq0; toR; Lra.lra.
have := Rmult_lt_0_compat _ _ n2_gt0 sq_gt0.
move: psd split_oo; rewrite extended_quadratic posterior_var_weights.
by toR => psd split_oo noise_gt0; Lra.lra.
Qed.

(* Without noise the variance is 0 only at an observed point. *)
Lemma posterior_var_noiseless_gt0 :
  noise = 0 -> uniq (q :: prev_x) ->
  (0 < posterior_cov X prev_x noise i i)%Re.
Proof.
move=> noise0 uniq_q.
have psd := Kmx_psd (A := q :: prev_x) v.
have := @Sigma_oo_quadratic prev_x noise (w 0).
rewrite weights_quadratic => split_oo.
have n2 : (noise ^ 2)%Re = 0 by rewrite noise0 /= Rmult_0_l.
rewrite n2 mul0r addr0 in split_oo.
have quadratic_neq0 :
    \sum_(j < size (q :: prev_x)) \sum_(j' < size (q :: prev_x))
       v j * v j' * Kmx (q :: prev_x) (q :: prev_x) j j' <> 0.
  move=> /(Kmx_pd uniq_q) /(_ ord0); rewrite /v unlift_none.
  exact: R1_neq_R0.
move: psd quadratic_neq0 split_oo.
rewrite extended_quadratic posterior_var_weights.
by toR => psd quadratic_neq0 split_oo; Lra.lra.
Qed.

End PosteriorVariance.

(* Hence the standard deviations that the acquisition functions take are
   finite. *)
Lemma posterior_sd_finite (X prev_x : seq R) (noise : R) (i : 'I_(size X)) :
  Sigma_oo prev_x noise \in unitmx ->
  np_sqrt (posterior_cov X prev_x noise i i)
  = Fin (sqrt (posterior_cov X prev_x noise i i)).
Proof.
move=> unit_oo; rewrite /np_sqrt; case: RltbP => // var_lt0.
by have := posterior_var_ge0 i unit_oo; Lra.lra.
Qed.


(* ===================================================================== *)
(* 13. The acquisition functions                                         *)
(* ===================================================================== *)

Section ScoreLists.

Variables (I : Type) (mu v : I -> R).

Lemma exp_imp_scores (b e : R) (s : seq I) :
  let imp := [seq Fin (m - b - e)%Re | m <- map mu s] in
  let sds := map np_sqrt (map v s) in
  let Z := map2 fdiv imp sds in
  map2 fadd (map2 fmul imp (map norm_cdf Z)) (map2 fmul sds (map norm_pdf Z))
  = [seq EI_formula (mu i - b - e)%Re (np_sqrt (v i)) | i <- s].
Proof. by elim: s => //= i s; rewrite /map2 /= => ->. Qed.

Lemma prob_imp_scores (b e : R) (s : seq I) :
  map norm_cdf
    (map2 fdiv [seq Fin (m - b - e)%Re | m <- map mu s]
       [seq fadd sd (Fin (1 / 10 ^ 9)%Re) | sd <- map np_sqrt (map v s)])
  = [seq norm_cdf (fdiv (Fin (mu i - b - e)%Re)
                        (fadd (np_sqrt (v i)) (Fin (1 / 10 ^ 9)%Re)))
    | i <- s].
Proof. by elim: s => //= i s; rewrite /map2 /= => ->. Qed.

Lemma upper_conf_bound_scores (kappa : R) (s : seq I) :
  map2 fadd (map Fin (map mu s))
    (map (fmul (Fin kappa)) (map np_sqrt (map v s)))
  = [seq fadd (Fin (mu i)) (fmul (Fin kappa) (np_sqrt (v i))) | i <- s].
Proof. by elim: s => //= i s; rewrite /map2 /= => ->. Qed.

Lemma EI_spec_scores (f_star eps : R) (s : seq I) :
  map2 (fun m x => EI_spec f_star m (np_sqrt x) eps) (map mu s) (map v s)
  = [seq EI_spec f_star (mu i) (np_sqrt (v i)) eps | i <- s].
Proof. by elim: s => //= i s; rewrite /map2 /= => ->. Qed.

End ScoreLists.

Section AcquisitionFacts.

Lemma Rmax_foldl_ge (s : seq R) (x : R) : (x <= foldl Rmax x s)%Re.
Proof.
elim: s x => [|y s IH] x /=; first exact: Rle_refl.
exact: Rle_trans (Rmax_l x y) (IH _).
Qed.

Lemma np_max_is_max (s : seq R) (m : R) : np_max s = Ok m -> is_max m s.
Proof.
case: s => [|x s] //= [<-]; elim: s x => [|y s IH] x /=.
  split; first exact: mem_head.
  by move=> z; rewrite inE => /eqP ->; exact: Rle_refl.
have [mem_max le_max] := IH (Rmax x y); split.
  move: mem_max; rewrite !inE => /orP [/eqP ->|->]; last by rewrite !orbT.
  by rewrite /Rmax; case: Rle_dec => _; rewrite eqxx ?orbT.
move=> z; rewrite !inE => /or3P [/eqP ->|/eqP ->|z_in_s].
- exact: Rle_trans (Rmax_l x y) (Rmax_foldl_ge _ _).
- exact: Rle_trans (Rmax_r x y) (Rmax_foldl_ge _ _).
- by apply: le_max; rewrite inE z_in_s orbT.
Qed.

Lemma np_max_returns (s : seq R) :
  (0 < size s)%N -> exists m, np_max s = Ok m.
Proof. by case: s => [|x s] // _; exists (foldl Rmax x s). Qed.

Variables (X prev_x prev_y : seq R) (noise : R).
Hypothesis eq_size : size prev_x = size prev_y.
Hypothesis unit_oo : Sigma_oo prev_x noise \in unitmx.

Lemma fitted_gaus_Ok (Q : seq R) :
  fitted_gaus Q prev_x prev_y noise
  = Ok ([seq posterior_mean Q prev_x prev_y noise i | i <- enum 'I_(size Q)],
        \matrix_(i, j) posterior_cov Q prev_x noise i j).
Proof. by rewrite fitted_gausE unit_oo -eq_size eqxx. Qed.

Lemma diagE (n : nat) (f : 'I_n -> 'I_n -> R) :
  diag (\matrix_(i, j) f i j) = [seq f i i | i <- enum 'I_n].
Proof. by apply: eq_map => i; rewrite mxE. Qed.

Lemma exp_impE (epcilon best_mean : R) :
  np_max (observed_means prev_x prev_y noise) = Ok best_mean ->
  exp_imp X prev_x prev_y noise epcilon
  = Ok [seq EI_formula
              (posterior_mean X prev_x prev_y noise i - best_mean - epcilon)%Re
              (np_sqrt (posterior_cov X prev_x noise i i))
       | i <- enum 'I_(size X)].
Proof.
move=> max_eq; rewrite /exp_imp !fitted_gaus_Ok /= -/(observed_means _ _ _).
rewrite max_eq /= diagE /ret; congr Ok.
exact: exp_imp_scores.
Qed.

Lemma prob_impE (epsilon best_mean : R) :
  np_max (observed_means prev_x prev_y noise) = Ok best_mean ->
  prob_imp X prev_x prev_y noise epsilon
  = Ok [seq norm_cdf
              (fdiv (Fin (posterior_mean X prev_x prev_y noise i
                          - best_mean - epsilon)%Re)
                    (fadd (np_sqrt (posterior_cov X prev_x noise i i))
                          (Fin (1 / 10 ^ 9)%Re)))
       | i <- enum 'I_(size X)].
Proof.
move=> max_eq; rewrite /prob_imp !fitted_gaus_Ok /= -/(observed_means _ _ _).
rewrite max_eq /= diagE /ret; congr Ok.
exact: prob_imp_scores.
Qed.

Lemma upper_conf_boundE (kappa : R) :
  upper_conf_bound X prev_x prev_y noise kappa
  = Ok [seq fadd (Fin (posterior_mean X prev_x prev_y noise i))
                 (fmul (Fin kappa)
                       (np_sqrt (posterior_cov X prev_x noise i i)))
       | i <- enum 'I_(size X)].
Proof.
rewrite /upper_conf_bound !fitted_gaus_Ok /= diagE /ret; congr Ok.
exact: upper_conf_bound_scores.
Qed.

End AcquisitionFacts.


(* Without noise the posterior interpolates the observations: at a query
   point that is an observed point the mean is the observed value and
   the variance is zero. *)
Section Noiseless.

Variables (X prev_x prev_y : seq R).
Hypothesis unit_oo : Sigma_oo prev_x 0 \in unitmx.

Lemma Sigma_oo_noiseless : Sigma_oo prev_x 0 = Kmx prev_x prev_x.
Proof. by apply/matrixP => i j; rewrite !mxE /=; ring. Qed.

Variables (i : 'I_(size X)) (k : 'I_(size prev_x)).
Hypothesis at_obs : nth 0%Re X i = nth 0%Re prev_x k.

Lemma row_at_obs : row i (Kmx X prev_x) = row k (Sigma_oo prev_x 0).
Proof.
by rewrite Sigma_oo_noiseless; apply/rowP => j; rewrite !mxE at_obs.
Qed.

Lemma weights_at_obs :
  row i (Kmx X prev_x *m invmx (Sigma_oo prev_x 0)) = delta_mx 0 k.
Proof. by rewrite row_mul row_at_obs -row_mul mulmxV // row1. Qed.

Lemma noiseless_mean : posterior_mean X prev_x prev_y 0 i = nth 0%Re prev_y k.
Proof.
rewrite -mean_entryE; set W := _ *m invmx _.
have -> : (W *m vec_of_seq (size prev_x) prev_y) i 0
          = (row i W *m vec_of_seq (size prev_x) prev_y) 0 0.
  by rewrite -row_mul [RHS]mxE.
by rewrite weights_at_obs -rowE !mxE.
Qed.

Lemma noiseless_cov : posterior_cov X prev_x 0 i i = 0.
Proof.
rewrite -cov_entryE; set W := _ *m invmx _.
have -> : (Kmx X X - W *m Kmx prev_x X) i i
          = Kmx X X i i - (row i W *m Kmx prev_x X) 0 i.
  by rewrite -row_mul [row _ _ _ _]mxE [LHS]mxE [X in _ + X]mxE.
rewrite weights_at_obs -rowE !mxE -at_obs K_diag.
by toR; ring.
Qed.

End Noiseless.

Section SmallCases.

Lemma map_enum1 (T : Type) (f : 'I_1 -> T) :
  [seq f i | i <- enum 'I_1] = [:: f ord0].
Proof. by rewrite enum_ordSl enum_ord0. Qed.

Lemma map_enum2 (T : Type) (f : 'I_2 -> T) :
  [seq f i | i <- enum 'I_2] = [:: f ord0; f (lift ord0 ord0)].
Proof. by rewrite enum_ordSl /= map_enum1. Qed.

(* One observation: Sigma_oo is the 1 x 1 matrix (1 + noise^2). *)
Lemma Sigma_oo_unit1 (x noise : R) : Sigma_oo [:: x] noise \in unitmx.
Proof.
rewrite unitmxE det_mx11 mxE K_diag eqxx unitfE; apply/eqP.
by have := pow2_ge_0 noise; toR; Lra.lra.
Qed.

(* Two observations at 0 and 1, no noise: the matrix [[1, k], [k, 1]] with
   k = exp(-1/2) < 1 is invertible. *)
Lemma Sigma_oo_unit01 : Sigma_oo [:: 0; 1]%Re 0 \in unitmx.
Proof.
pose k := exp (- / 2).
have k_lt1 : (k < 1)%Re by rewrite -exp_0; apply: exp_increasing; Lra.lra.
have k_gt0 : (0 < k)%Re by exact: exp_pos.
have d_neq0 : (1 - k * k <> 0)%Re by Lra.nra.
pose B : 'M[R]_2 :=
  \matrix_(i, j) (if i == j then 1 / (1 - k * k) else - k / (1 - k * k))%Re.
have K01 : K 1 0 1 = k by rewrite /K /k; congr exp; field.
have K10 : K 1 1 0 = k by rewrite K_sym.
suff /mulmx1_unit [] : Sigma_oo [:: 0; 1]%Re 0 *m B = 1%:M by [].
apply/matrixP => i j; rewrite !mxE !big_ord_recl big_ord0 !mxE /=.
case: i => [[|[|i]] lt_i] //; case: j => [[|[|j]] lt_j] //=;
  rewrite ?K_diag ?K01 ?K10; toR; rewrite /=; field; exact: d_neq0.
Qed.

End SmallCases.


Section SpecialValues.

Lemma np_sqrt0 : np_sqrt 0 = Fin 0.
Proof.
rewrite /np_sqrt; case: RltbP => [lt00|_]; last by rewrite sqrt_0.
by case: (Rlt_irrefl _ lt00).
Qed.

Lemma fdiv_neg_0 (d : R) : (d < 0)%Re -> fdiv (Fin d) (Fin 0) = NInf.
Proof.
move=> d_lt0; rewrite /fdiv eqxx; case: eqP => [d0|_]; first by Lra.lra.
by case: RltbP.
Qed.

Lemma fdiv_pos_0 (d : R) : (0 < d)%Re -> fdiv (Fin d) (Fin 0) = PInf.
Proof.
move=> d_gt0; rewrite /fdiv eqxx; case: eqP => [d0|_]; first by Lra.lra.
by case: RltbP => // d_lt0; Lra.lra.
Qed.

Lemma fdiv_0_0 : fdiv (Fin 0) (Fin 0) = NaN.
Proof. by rewrite /fdiv !eqxx. Qed.

Lemma fadd_fin (a b : R) : fadd (Fin a) (Fin b) = Fin (a + b)%Re.
Proof. by []. Qed.

Lemma fdiv_fin (a b : R) : b <> 0 -> fdiv (Fin a) (Fin b) = Fin (a / b)%Re.
Proof. by move=> b_neq0; rewrite /fdiv; case: eqP. Qed.

(* At sigma = 0 the formula d Phi(d / 0) + 0 phi(d / 0) is 0 below d = 0,
   d above, and nan at d = 0. *)
Lemma EI_formula_neg (d : R) : (d < 0)%Re -> EI_formula d (Fin 0) = Fin 0.
Proof.
by move=> d_lt0; rewrite /EI_formula fdiv_neg_0 //=; congr Fin; ring.
Qed.

Lemma EI_formula_pos (d : R) : (0 < d)%Re -> EI_formula d (Fin 0) = Fin d.
Proof.
by move=> d_gt0; rewrite /EI_formula fdiv_pos_0 //=; congr Fin; ring.
Qed.

Lemma EI_formula_nan : EI_formula 0 (Fin 0) = NaN.
Proof. by rewrite /EI_formula fdiv_0_0. Qed.

Lemma std_cdf0 : std_cdf 0 = (1 / 2)%Re.
Proof. by rewrite /std_cdf RiemannInt_P9; ring. Qed.

Lemma tiny_neq0 : (1 / 10 ^ 9 <> 0)%Re.
Proof.
have p_gt0 : (0 < 10 ^ 9)%Re by apply: pow_lt; Lra.lra.
by apply: Rgt_not_eq; apply: Rdiv_lt_0_compat => //; Lra.lra.
Qed.

End SpecialValues.

Section SpecScores.

Variables (X prev_x prev_y : seq R) (noise : R).
Hypothesis eq_size : size prev_x = size prev_y.
Hypothesis unit_oo : Sigma_oo prev_x noise \in unitmx.

Lemma exp_imp_specE (eps f_star : R) :
  np_max (observed_means prev_x prev_y noise) = Ok f_star ->
  exp_imp_spec X prev_x prev_y noise eps
  = Ok [seq EI_spec f_star (posterior_mean X prev_x prev_y noise i)
                    (np_sqrt (posterior_cov X prev_x noise i i)) eps
       | i <- enum 'I_(size X)].
Proof.
move=> max_eq; rewrite /exp_imp_spec !fitted_gaus_Ok //=.
rewrite -/(observed_means _ _ _) max_eq /= diagE /ret; congr Ok.
exact: EI_spec_scores.
Qed.

End SpecScores.


(** C2 (amended): for a non-empty observation set with Sigma_oo
    invertible, exp_imp returns, for each candidate, d Phi(Z) + sigma
    phi(Z) with d = mu - f* - eps and Z = d / sigma (the sign of the
    specification's f* - mu is reversed), where mu and sigma are the
    posterior mean and the square root of the posterior variance at the
    candidate, and f* is the maximum of the posterior means at the
    observed points, which a second call of fitted_gaus on observed_x
    returns. *)
Theorem C2_expected_improvement
    (candidates observed_x observed_y : seq R) (noise_std eps : R) :
  size observed_x = size observed_y ->
  (0 < size observed_x)%N ->
  Sigma_oo observed_x noise_std \in unitmx ->
  exists f_star scores,
    [/\ exp_imp candidates observed_x observed_y noise_std eps = Ok scores,
        exists cov,
          fitted_gaus observed_x observed_x observed_y noise_std
          = Ok (observed_means observed_x observed_y noise_std, cov),
        is_max f_star (observed_means observed_x observed_y noise_std),
        size scores = size candidates
      & forall i : 'I_(size candidates),
          let mu :=
            posterior_mean candidates observed_x observed_y noise_std i in
          let sigma :=
            np_sqrt (posterior_cov candidates observed_x noise_std i i) in
          let d := (mu - f_star - eps)%Re in
          let Z := fdiv (Fin d) sigma in
          nth NaN scores i
          = fadd (fmul (Fin d) (norm_cdf Z)) (fmul sigma (norm_pdf Z))].
Proof.
move=> eq_size obs_gt0 unit_oo.
have [f_star max_eq] :
    exists m, np_max (observed_means observed_x observed_y noise_std) = Ok m.
  by apply: np_max_returns; rewrite size_ord_map.
exists f_star; eexists; split.
- exact: exp_impE max_eq.
- by eexists; exact: fitted_gaus_Ok.
- exact: np_max_is_max.
- exact: size_ord_map.
- move=> i /=; rewrite (nth_map i) ?size_enum_ord //.
  by rewrite nth_ord_enum.
Qed.

Lemma C2_witness :
  exists f_star scores,
    exp_imp [:: 0; 1]%Re [:: 0%Re] [:: 1%Re] 1 (1 / 10)%Re = Ok scores
    /\ is_max f_star (observed_means [:: 0%Re] [:: 1%Re] 1).
Proof.
have [f_star [scores [eq_scores _ max_f _ _]]] :=
  @C2_expected_improvement [:: 0; 1]%Re [:: 0%Re] [:: 1%Re] 1 (1 / 10)%Re
    (erefl _) (erefl _) (Sigma_oo_unit1 0 1).
by exists f_star, scores.
Defined.

(** C2, counterexample: observations (0, 0) and (1, 1) without noise, the
    candidate 0 and eps = 1/2.  There mu = 0, sigma = 0 and f* = 1: the
    source computes d = mu - f* - eps = -3/2, hence the score 0, where the
    formula of the specification has d = f* - mu - eps = 1/2 and gives
    1/2. *)
Lemma C2_counterexample :
  [/\ exp_imp [:: 0%Re] [:: 0; 1]%Re [:: 0; 1]%Re 0 (1 / 2)%Re
        = Ok [:: Fin 0],
      exp_imp_spec [:: 0%Re] [:: 0; 1]%Re [:: 0; 1]%Re 0 (1 / 2)%Re
        = Ok [:: Fin (1 / 2)%Re]
    & exp_imp [:: 0%Re] [:: 0; 1]%Re [:: 0; 1]%Re 0 (1 / 2)%Re
      <> exp_imp_spec [:: 0%Re] [:: 0; 1]%Re [:: 0; 1]%Re 0 (1 / 2)%Re].
Proof.
pose px := [:: 0; 1]%Re.
have means_eq : observed_means px px 0 = px.
  rewrite /observed_means map_enum2.
  rewrite (@noiseless_mean px px px Sigma_oo_unit01 ord0 ord0) //.
  by rewrite (@noiseless_mean px px px Sigma_oo_unit01 _ (lift ord0 ord0)).
have max_eq : np_max (observed_means px px 0) = Ok 1%Re.
  by rewrite means_eq /= Rmax_right //; Lra.lra.
have mu_eq : posterior_mean [:: 0%Re] px px 0 ord0 = 0%Re.
  exact: (@noiseless_mean [:: 0%Re] px px Sigma_oo_unit01 ord0 ord0).
have var_eq : posterior_cov [:: 0%Re] px 0 ord0 ord0 = 0%Re.
  exact: (@noiseless_cov [:: 0%Re] px Sigma_oo_unit01 ord0 ord0).
have code_eq : exp_imp [:: 0%Re] px px 0 (1 / 2)%Re = Ok [:: Fin 0].
  rewrite (@exp_impE [:: 0%Re] px px 0 (erefl _) Sigma_oo_unit01 _ _ max_eq).
  rewrite map_enum1.
  have d_lt0 : (0 - 1 - 1 / 2 < 0)%Re by Lra.lra.
  by rewrite mu_eq var_eq np_sqrt0 (EI_formula_neg d_lt0).
have spec_eq : exp_imp_spec [:: 0%Re] px px 0 (1 / 2)%Re
               = Ok [:: Fin (1 / 2)%Re].
  rewrite (@exp_imp_specE [:: 0%Re] px px 0 (erefl _) Sigma_oo_unit01 _ _
             max_eq) map_enum1.
  have d_gt0 : (0 < 1 - 0 - 1 / 2)%Re by Lra.lra.
  rewrite mu_eq var_eq np_sqrt0 /EI_spec (EI_formula_pos d_gt0).
  by congr (Ok [:: Fin _]); field.
split=> //; rewrite code_eq spec_eq => - [] eq_half.
by Lra.lra.
Qed.


(** C5 (amended): at a candidate whose posterior standard deviation is
    exactly 0, prob_imp divides by sigma + 1e-9 = 1e-9, never by zero,
    and returns Phi((mu - f* - eps) / 1e-9), a finite value that is not 0
    in general. *)
Theorem C5_prob_imp_zero_sigma
    (candidates observed_x observed_y : seq R) (noise_std eps : R)
    (i : 'I_(size candidates)) :
  size observed_x = size observed_y ->
  (0 < size observed_x)%N ->
  Sigma_oo observed_x noise_std \in unitmx ->
  np_sqrt (posterior_cov candidates observed_x noise_std i i) = Fin 0 ->
  exists f_star scores,
    [/\ prob_imp candidates observed_x observed_y noise_std eps = Ok scores,
        is_max f_star (observed_means observed_x observed_y noise_std),
        (0 + 1 / 10 ^ 9 <> 0)%Re
      & let mu :=
          posterior_mean candidates observed_x observed_y noise_std i in
        nth NaN scores i
        = Fin (std_cdf ((mu - f_star - eps) / (0 + 1 / 10 ^ 9)))].
Proof.
move=> eq_size obs_gt0 unit_oo sigma0.
have [f_star max_eq] :
    exists m, np_max (observed_means observed_x observed_y noise_std) = Ok m.
  by apply: np_max_returns; rewrite size_ord_map.
have den_neq0 : (0 + 1 / 10 ^ 9 <> 0)%Re.
  by rewrite Rplus_0_l; exact: tiny_neq0.
exists f_star; eexists; split=> //.
- exact: prob_impE max_eq.
- exact: np_max_is_max.
- rewrite (nth_map i) ?size_enum_ord // nth_ord_enum sigma0.
  by rewrite fadd_fin fdiv_fin.
Qed.

Lemma C5_witness :
  np_sqrt (posterior_cov [:: 0%Re] [:: 0%Re] 0 ord0 ord0) = Fin 0
  /\ exists f_star scores,
       prob_imp [:: 0%Re] [:: 0%Re] [:: 1%Re] 0 (1 / 10)%Re = Ok scores
       /\ nth NaN scores 0
          = Fin (std_cdf
                   ((posterior_mean [:: 0%Re] [:: 0%Re] [:: 1%Re] 0 ord0
                     - f_star - 1 / 10) / (0 + 1 / 10 ^ 9)))%Re.
Proof.
have sigma0 : np_sqrt (posterior_cov [:: 0%Re] [:: 0%Re] 0 ord0 ord0) = Fin 0.
  rewrite (@noiseless_cov [:: 0%Re] [:: 0%Re] (Sigma_oo_unit1 0 0) ord0 ord0) //.
  exact: np_sqrt0.
split=> //.
have [f_star [scores [eq_scores _ _ eq_nth]]] :=
  @C5_prob_imp_zero_sigma [:: 0%Re] [:: 0%Re] [:: 1%Re] 0 (1 / 10)%Re ord0
    (erefl _) (erefl _) (Sigma_oo_unit1 0 0) sigma0.
by exists f_star, scores.
Defined.

(** C5, counterexample: one observation (0, 1) without noise, the
    candidate 0 and eps = 0.  The posterior variance at the candidate is
    0; exp_imp evaluates 0 / 0 and returns nan, prob_imp returns 1/2:
    neither score is 0. *)
Lemma C5_counterexample :
  [/\ exists cov : 'M[R]_1,
        fitted_gaus [:: 0%Re] [:: 0%Re] [:: 1%Re] 0 = Ok ([:: 1%Re], cov)
        /\ np_sqrt (cov ord0 ord0) = Fin 0,
      exp_imp [:: 0%Re] [:: 0%Re] [:: 1%Re] 0 0 = Ok [:: NaN]
    & prob_imp [:: 0%Re] [:: 0%Re] [:: 1%Re] 0 0 = Ok [:: Fin (1 / 2)%Re]].
Proof.
pose px := [:: 0%Re]; pose py := [:: 1%Re].
have unit_oo := Sigma_oo_unit1 0 0.
have mu_eq : posterior_mean px px py 0 ord0 = 1%Re.
  exact: (@noiseless_mean px px py unit_oo ord0 ord0).
have var_eq : posterior_cov px px 0 ord0 ord0 = 0%Re.
  exact: (@noiseless_cov px px unit_oo ord0 ord0).
have max_eq : np_max (observed_means px py 0) = Ok 1%Re.
  by rewrite /observed_means map_enum1 mu_eq.
split.
- eexists; split.
    by rewrite (@fitted_gaus_Ok px py 0 (erefl _) unit_oo) map_enum1 mu_eq.
  by rewrite mxE var_eq np_sqrt0.
- rewrite (@exp_impE px px py 0 (erefl _) unit_oo _ _ max_eq) map_enum1.
  rewrite mu_eq var_eq np_sqrt0.
  have -> : (1 - 1 - 0 = 0)%Re by ring.
  by rewrite EI_formula_nan.
- rewrite (@prob_impE px px py 0 (erefl _) unit_oo _ _ max_eq) map_enum1.
  have den_neq0 : (0 + 1 / 10 ^ 9 <> 0)%Re.
    by rewrite Rplus_0_l; exact: tiny_neq0.
  rewrite mu_eq var_eq np_sqrt0 fadd_fin (fdiv_fin _ den_neq0).
  have -> : ((1 - 1 - 0) / (0 + 1 / 10 ^ 9) = 0)%Re.
    by rewrite /Rdiv; ring.
  by rewrite /norm_cdf std_cdf0.
Qed.


(* ===================================================================== *)
(* 14. Singular and ill-conditioned observation covariances              *)
(* ===================================================================== *)

(* Two observations at the same point 0: Sigma_oo = [[1 + c, 1], [1, 1 + c]]
   with c = noise^2.  It is singular for c = 0; for c > 0 its inverse is
   [[1 + c, -1], [-1, 1 + c]] / (c (2 + c)) and its condition number in the
   infinity norm is (2 + c) / c. *)
Section TwoEqualPoints.

Variable noise : R.
Let c : R := (noise ^ 2)%Re.
Let S : 'M[R]_2 := Sigma_oo [:: 0; 0]%Re noise.

Lemma S_entry (i j : 'I_2) :
  S i j = (if i == j then 1 + c else 1)%Re.
Proof.
rewrite mxE -/c; have -> : K 1 (nth 0 [:: 0; 0] i) (nth 0 [:: 0; 0] j) = 1%Re.
  by case: i => [[|[|i]] lt_i] //; case: j => [[|[|j]] lt_j] //=; exact: K_diag.
by case: ifP => _; ring.
Qed.

Lemma twin_singular : noise = 0 -> S \notin unitmx.
Proof.
move=> noise0; rewrite unitmxE unitfE negbK; apply/eqP.
have neq01 : ord0 != lift ord0 ord0 :> 'I_2 by [].
apply: (determinant_alternate neq01) => j.
have c0 : c = 0%Re by rewrite /c noise0 /= Rmult_0_l.
by rewrite !S_entry c0; case: ifP => _; case: ifP => _; toR; ring.
Qed.

Hypothesis noise_neq0 : noise <> 0.

Let c_gt0 : (0 < c)%Re.
Proof.
have := pow2_ge_0 noise; have := pow_nonzero noise 2 noise_neq0.
by rewrite -/c; Lra.lra.
Qed.

Let B : 'M[R]_2 :=
  \matrix_(i, j) (if i == j then (1 + c) / (c * (2 + c))
                  else - 1 / (c * (2 + c)))%Re.

Lemma twin_inverse : invmx S = B.
Proof.
have SB : S *m B = 1%:M.
  apply/matrixP => i j; rewrite !mxE !big_ord_recl big_ord0 !S_entry !mxE.
  case: i => [[|[|i]] lt_i] //; case: j => [[|[|j]] lt_j] //=;
    toR; rewrite /=; field; Lra.lra.
have [unit_S _] := mulmx1_unit SB.
by rewrite -[RHS]mul1mx -(mulVmx unit_S) -mulmxA SB mulmx1.
Qed.

Lemma twin_norm : norm_inf S = (2 + c)%Re.
Proof.
rewrite /norm_inf !big_ord_recl !big_ord0 !S_entry /=; toR.
rewrite !Rabs_pos_eq; try Lra.lra.
rewrite [Rmax (1 + _) 0]Rmax_left; try Lra.lra.
by rewrite Rmax_left; Lra.lra.
Qed.

Lemma twin_inverse_norm : norm_inf (invmx S) = (/ c)%Re.
Proof.
have D_gt0 : (0 < c * (2 + c))%Re by apply: Rmult_lt_0_compat; Lra.lra.
have a_ge0 : (0 <= (1 + c) / (c * (2 + c)))%Re.
  by apply/Rlt_le/Rdiv_lt_0_compat => //; Lra.lra.
have b_le0 : (- 1 / (c * (2 + c)) <= 0)%Re.
  have : (0 < 1 / (c * (2 + c)))%Re by apply: Rdiv_lt_0_compat => //; Lra.lra.
  by rewrite /Rdiv => inv_gt0; Lra.lra.
have row_sum : ((1 + c) / (c * (2 + c)) + - (- 1 / (c * (2 + c))) = / c)%Re.
  by field; Lra.lra.
have inv_ge0 : (0 <= / c)%Re by apply/Rlt_le/Rinv_0_lt_compat.
rewrite twin_inverse /norm_inf !big_ord_recl !big_ord0 !mxE /=; toR.
rewrite (Rabs_pos_eq _ a_ge0) (Rabs_left1 _ b_le0).
set a := ((1 + c) / (c * (2 + c)))%Re in a_ge0 row_sum *.
set b := (- 1 / (c * (2 + c)))%Re in b_le0 row_sum *.
have -> : (a + (- b + 0) = / c)%Re by Lra.lra.
have -> : (- b + (a + 0) = / c)%Re by Lra.lra.
by rewrite (Rmax_left _ _ inv_ge0) Rmax_left //; Lra.lra.
Qed.

Lemma twin_cond : cond_inf S = ((2 + c) / c)%Re.
Proof. by rewrite /cond_inf twin_norm twin_inverse_norm. Qed.

End TwoEqualPoints.





(** C7 (amended): rbf_kernel checks nothing.  For every lengthscale other
    than 0, negative ones included, it returns the matrix of
    exp(-(x - x')^2 / (2 lengthscale^2)) and raises no error; a negative
    lengthscale gives the matrix of its absolute value. *)
Theorem C7_kernel_no_validation (x1 x2 : seq R) (lengthscale : R) :
  lengthscale <> 0 ->
  exists Kmat : 'M[R]_(size x1, size x2),
    [/\ rbf_kernel x1 x2 lengthscale = Ok Kmat,
        rbf_kernel x1 x2 (- lengthscale) = Ok Kmat
      & forall i j,
          Kmat i j = exp (- ((nth 0 x1 i - nth 0 x2 j) ^ 2)
                          / (2 * lengthscale ^ 2))%Re].
Proof.
move=> _; exists (\matrix_(i, j) K lengthscale (nth 0%Re x1 i) (nth 0%Re x2 j)).
split; first exact: rbf_kernelE.
  rewrite rbf_kernelE; congr Ok; apply/matrixP => i j; rewrite !mxE /K.
  by congr (exp (_ / _)); ring.
by move=> i j; rewrite mxE.
Qed.

Lemma C7_witness :
  (- 1 <> 0)%Re
  /\ exists Kmat : 'M[R]_(1, 1),
       rbf_kernel [:: 0%Re] [:: 0%Re] (- 1) = Ok Kmat
       /\ rbf_kernel [:: 0%Re] [:: 0%Re] (- - 1) = Ok Kmat.
Proof.
have m1_neq0 : (- 1 <> 0)%Re by Lra.lra.
split=> //.
have [Kmat [eq_neg eq_pos _]] :=
  @C7_kernel_no_validation [:: 0%Re] [:: 0%Re] (- 1)%Re m1_neq0.
by exists Kmat.
Defined.

(** C7, counterexample: the lengthscale -1 and the noise_std -1 and 0 are
    accepted; rbf_kernel returns the matrix (1) and fitted_gaus returns. *)
Lemma C7_counterexample :
  [/\ exists Kmat : 'M[R]_(1, 1),
        rbf_kernel [:: 0%Re] [:: 0%Re] (- 1) = Ok Kmat
        /\ Kmat ord0 ord0 = 1%Re,
      ~ raises (rbf_kernel [:: 0%Re] [:: 0%Re] (- 1)),
      returns (fitted_gaus [:: 0%Re] [:: 0%Re] [:: 1%Re] (- 1))
    & returns (fitted_gaus [:: 0%Re] [:: 0%Re] [:: 1%Re] 0)].
Proof.
split.
- eexists; split; first exact: rbf_kernelE.
  by rewrite mxE K_diag.
- by apply: returns_not_raises; rewrite rbf_kernelE; eexists.
- by rewrite fitted_gausE Sigma_oo_unit1 /=; eexists.
- by rewrite fitted_gausE Sigma_oo_unit1 /=; eexists.
Qed.


(* ===================================================================== *)
(* 15. numpy.argmax                                                      *)
(* ===================================================================== *)

Section Argmax.

Lemma np_le_refl (x : npfloat) : np_le x x.
Proof.
case: x => [a| | |] //; rewrite /np_le /=.
by apply/RlebP; exact: Rle_refl.
Qed.

Lemma np_le_trans (y x z : npfloat) : np_le x y -> np_le y z -> np_le x z.
Proof.
case: x => [a| | |]; case: y => [b| | |]; case: z => [c| | |] //=;
  rewrite /np_le /= => /RlebP le_ab /RlebP le_bc.
by apply/RlebP; exact: Rle_trans le_ab le_bc.
Qed.

Lemma np_le_total (x y : npfloat) : np_le x y || np_le y x.
Proof.
case: x => [a| | |]; case: y => [b| | |] //=; rewrite /np_le /=.
by case: RlebP => //= nle_ab; apply/RlebP; Lra.lra.
Qed.

Variable t : seq npfloat.

Lemma argmax_scan_spec (n : nat) (mp : npfloat) (k i : nat) :
  (size t - i = n)%N -> (i <= size t)%N -> (k < i)%N ->
  nth NaN t k = mp ->
  (forall j, (j < i)%N -> np_le (nth NaN t j) mp) ->
  (forall j, (j < k)%N -> ~~ np_le mp (nth NaN t j)) ->
  first_argmax t (argmax_scan mp k i (drop i t)).
Proof.
elim: n mp k i => [|n IH] mp k i size_eq le_i lt_ki mp_eq max_mp first_mp.
  have i_eq : i = size t.
    by apply/eqP; rewrite eqn_leq le_i /= -subn_eq0 size_eq.
  rewrite i_eq drop_size /=; split=> [|j lt_j|j lt_j].
  - by rewrite -i_eq.
  - by rewrite mp_eq; apply: max_mp; rewrite i_eq.
  - by rewrite mp_eq; exact: first_mp.
have lt_i : (i < size t)%N by rewrite -subn_gt0 size_eq.
rewrite (drop_nth NaN lt_i) /=; case: ifP => [nan_mp|not_nan].
  split=> [|j lt_j|j lt_j].
  - exact: ltn_trans lt_ki lt_i.
  - by rewrite mp_eq /np_le nan_mp.
  - by rewrite mp_eq; exact: first_mp.
have step : fle (nth NaN t i) mp = np_le (nth NaN t i) mp.
  by rewrite /np_le not_nan.
rewrite step; case: ifP => [le_x|nle_x].
  apply: (IH mp k i.+1) => // [||j].
  - by rewrite subnS size_eq.
  - exact: ltnW.
  - by rewrite ltnS leq_eqVlt => /orP [/eqP ->|/max_mp].
have le_mp_x : np_le mp (nth NaN t i).
  by have := np_le_total (nth NaN t i) mp; rewrite nle_x.
apply: (IH (nth NaN t i) i i.+1) => // [|j|j lt_j].
- by rewrite subnS size_eq.
- rewrite ltnS leq_eqVlt => /orP [/eqP ->|lt_j]; first exact: np_le_refl.
  exact: np_le_trans (max_mp _ lt_j) le_mp_x.
- apply/negP => le_x_j; move: nle_x => /negP; apply.
  exact: np_le_trans le_x_j (max_mp _ lt_j).
Qed.

Lemma argmax_spec (k : nat) : argmax t = Ok k -> first_argmax t k.
Proof.
rewrite /argmax; case t_eq : t => [|x s] // [<-].
have := @argmax_scan_spec (size t - 1) x 0 1.
rewrite t_eq /= drop0; apply=> // [[|j]] // _.
exact: np_le_refl.
Qed.

Lemma argmax_returns : (0 < size t)%N -> exists k, argmax t = Ok k.
Proof. by rewrite /argmax; case: t => [|x s] // _; eexists. Qed.

(* The first arg-max is unique: the choice is deterministic. *)
Lemma first_argmax_uniq (k1 k2 : nat) :
  first_argmax t k1 -> first_argmax t k2 -> k1 = k2.
Proof.
move=> [lt1 max1 first1] [lt2 max2 first2].
apply/eqP; rewrite eqn_leq leqNgt [(k2 <= k1)%N]leqNgt.
apply/andP; split; apply/negP.
  by move=> /first1; rewrite max2.
by move=> /first2; rewrite max1.
Qed.

End Argmax.


(* ===================================================================== *)
(* 16. The candidate grid and the sampling loop                          *)
(* ===================================================================== *)

Section Grid.

Variables (start stop : R) (num : nat).
Hypothesis num_gt1 : (1 < num)%N.

Lemma size_linspace : size (linspace start stop num) = num.
Proof.
rewrite /linspace num_gt1 size_set_nth size_mkseq prednK ?maxnn //.
exact: ltnW.
Qed.

Lemma INR_pred_neq0 : INR num.-1 <> 0.
Proof.
by move: num_gt1; case: num => [|[|n]] // _; exact: not_0_INR.
Qed.

Lemma nth_linspace (k : nat) :
  (k < num)%N ->
  nth 0 (linspace start stop num) k
  = (start + INR k * ((stop - start) / INR num.-1))%Re.
Proof.
move=> lt_k; rewrite /linspace num_gt1 nth_set_nth /=.
case: eqP => [->|_]; last by rewrite nth_mkseq //; ring.
by field; exact: INR_pred_neq0.
Qed.

Lemma linspace_bounds (k : nat) :
  (start <= stop)%Re -> (k < num)%N ->
  (start <= nth 0 (linspace start stop num) k <= stop)%Re.
Proof.
move=> le_ab lt_k; rewrite nth_linspace //.
have n1_gt0 : (0 < INR num.-1)%Re.
  by apply: lt_0_INR; apply/ltP; rewrite -subn1 subn_gt0.
have k_ge0 : (0 <= INR k)%Re by exact: pos_INR.
have k_le : (INR k <= INR num.-1)%Re.
  by apply: le_INR; apply/leP; rewrite -ltnS prednK // ltnW.
set step := ((stop - start) / _)%Re.
have step_ge0 : (0 <= step)%Re.
  by apply: Rmult_le_pos; [Lra.lra | apply/Rlt_le/Rinv_0_lt_compat].
have top : (INR num.-1 * step = stop - start)%Re.
  by rewrite /step; field; exact: INR_pred_neq0.
have := Rmult_le_compat_r _ _ _ step_ge0 k_le.
have := Rmult_le_pos _ _ k_ge0 step_ge0.
by Lra.lra.
Qed.

End Grid.

Section GridOfTheScript.

Lemma size_grid : size grid = 100.
Proof. exact: size_linspace. Qed.

Lemma nth_grid (k : nat) :
  (k < 100)%N -> nth 0 grid k = (INR k * (10 / 99))%Re.
Proof.
move=> lt_k; rewrite /grid nth_linspace //= /bounds /=.
by field_simplify_eq; Lra.lra.
Qed.

Lemma grid_bounds (k : nat) :
  (k < 100)%N -> (0 <= nth 0 grid k <= 10)%Re.
Proof. by move=> lt_k; apply: linspace_bounds => //=; Lra.lra. Qed.

End GridOfTheScript.


Lemma bind_Ok {A B : Type} (a : A) (k : A -> result B) : bind (Ok a) k = k a.
Proof. by []. Qed.

(* The draw of mix_function decides whether objective_function returns,
   not what it returns. *)
Lemma objective_function_eq (x noise : R) :
  objective_function x noise
  = if Rltb noise 0 then Raise ValueError else Ok (objective_value x).
Proof.
by rewrite /objective_function /mix_function; case: (Rltb noise 0).
Qed.

Lemma objective_function_ge0 (x noise : R) :
  (0 <= noise)%Re -> objective_function x noise = Ok (objective_value x).
Proof.
by move=> noise_ge0; rewrite objective_function_eq; case: RltbP => //; Lra.lra.
Qed.

Lemma objectives_ge0 (noise : R) (xs : seq R) :
  (0 <= noise)%Re ->
  for_each (fun x => objective_function x noise) xs
  = Ok [seq objective_value x | x <- xs].
Proof.
move=> noise_ge0; elim: xs => [|x xs IH] //=.
by rewrite objective_function_ge0 //= IH.
Qed.

(* show_plot raises what the posterior on the grid raises. *)
Lemma show_plot_eq (X Y : seq R) (noise : R) :
  show_plot X Y noise = (_ <- fitted_gaus grid X Y noise ;; ret tt).
Proof.
rewrite /show_plot -/grid (objectives_ge0 _ (Rle_refl 0)) /=.
by case: (fitted_gaus _ _ _ _) => // -[].
Qed.

Section Frames.

Variable empty_array_truth : result bool.

Lemma save_plot_returns (X Y : seq R) (noise : R) (new_x : pyval) (t : bool) :
  noise <> 0 -> size X = size Y -> truth empty_array_truth new_x = Ok t ->
  save_plot empty_array_truth X Y noise new_x = Ok tt.
Proof.
move=> noise_neq0 eq_size truth_eq.
rewrite /save_plot show_plot_eq fitted_gausE Sigma_oo_unit // eq_size eqxx /=.
by rewrite truth_eq.
Qed.

Lemma save_plot_empty (nu : R) :
  save_plot empty_array_truth [::] [::] nu PyNone = Ok tt.
Proof. by rewrite /save_plot show_plot_eq fitted_gausE unitmx00. Qed.

Lemma save_plot_empty_float (nu x : R) :
  save_plot empty_array_truth [::] [::] nu (PyFloat x) = Ok tt.
Proof. by rewrite /save_plot show_plot_eq fitted_gausE unitmx00. Qed.

End Frames.

Section Iteration.

Variable empty_array_truth : result bool.
Variables (acq : acquisition) (noise param : R).
Hypothesis acq_script : script_acquisition acq.
Hypothesis noise_gt0 : (0 < noise)%Re.

Let noise_neq0 : noise <> 0.
Proof. exact: Rgt_not_eq noise_gt0. Qed.

Let noise_ge0 : (0 <= noise)%Re.
Proof. exact: Rlt_le. Qed.

Local Notation loop_body' := (loop_body empty_array_truth acq noise param).

Lemma acq_returns (Q X Y : seq R) :
  size X = size Y -> (0 < size X)%N ->
  exists scores, acq Q X Y noise param = Ok scores /\ size scores = size Q.
Proof.
move=> eq_size X_gt0; have unit_oo := Sigma_oo_unit X noise_neq0.
have [best max_eq] : exists m, np_max (observed_means X Y noise) = Ok m.
  by apply: np_max_returns; rewrite size_ord_map.
case: acq_script => ->; eexists; split.
- exact: exp_impE max_eq.
- exact: size_ord_map.
- exact: prob_impE max_eq.
- exact: size_ord_map.
- exact: upper_conf_boundE.
- exact: size_ord_map.
Qed.

(* Before the first sample the body only draws; the pass i = 3 tests the
   array X, which has to hold one element. *)
Lemma loop_body_drawing (i : nat) (X Y : seq R) :
  (i <= 3)%N -> size X = size Y -> (i = 3 -> size X = 1) ->
  loop_body' i (X, Y) = Ok (X, Y).
Proof.
case: i => [|[|[|[|i]]]] // _ eq_size one_at_3; rewrite /loop_body /=.
- by rewrite save_plot_empty.
- by rewrite save_plot_empty.
- by rewrite save_plot_empty.
- have [x X_eq] : exists x, X = [:: x].
    have := one_at_3 (erefl _).
    by case: (X) => [|x [|? ?]] // _; exists x.
  by rewrite (@save_plot_returns _ _ _ _ _ (x != 0)) // X_eq.
Qed.

(* From the fifth pass on, the body samples the grid at the first
   arg-max of the scores. *)
Lemma loop_body_sampling (i : nat) (X Y : seq R) :
  (3 < i)%N -> size X = size Y -> (0 < size X)%N ->
  exists scores k,
    [/\ acq grid X Y noise param = Ok scores,
        first_argmax scores k,
        (k < 100)%N
      & loop_body' i (X, Y)
        = Ok (rcons X (nth 0 grid k),
              rcons Y (objective_value (nth 0 grid k)))].
Proof.
move=> i_gt3 eq_size X_gt0.
have [scores [eq_scores size_scores]] := acq_returns grid eq_size X_gt0.
have [k eq_k] : exists k, argmax scores = Ok k.
  by apply: argmax_returns; rewrite size_scores size_grid.
have arg_k := argmax_spec eq_k.
have lt_k : (k < 100)%N by case: arg_k; rewrite size_scores size_grid.
exists scores, k; split=> //.
case: i i_gt3 => [|[|[|[|i]]]] // _.
rewrite /loop_body /= -/grid eq_scores /= eq_k /= /getitem size_grid lt_k /=.
rewrite objective_function_ge0 //=.
rewrite (@save_plot_returns _ _ _ _ _ (nth 0%Re grid k != 0)) //.
by rewrite /np_append !size_rcons eq_size.
Qed.

End Iteration.

Section WholeRun.

Variable empty_array_truth : result bool.
Variables (acq : acquisition) (noise param : R) (x0 : R).
Hypothesis acq_script : script_acquisition acq.
Hypothesis noise_gt0 : (0 < noise)%Re.

Local Notation loop_body' := (loop_body empty_array_truth acq noise param).

(* The array X holds the seed alone until the first pass that samples,
   the pass i = 4. *)
Lemma loop_body_seeded (i : nat) (st : seq R * seq R) :
  seeded x0 st -> ((i <= 3)%N -> size st.1 = 1) ->
  exists st',
    [/\ loop_body' i st = Ok st', seeded x0 st'
      & size st'.1 = (size st.1 + (3 < i))%N].
Proof.
case: st => X Y [eq_size [appended [X_eq on_grid]]] one_before.
rewrite /= in eq_size X_eq one_before.
case: (leqP i 3) => [i_le3|i_gt3].
  have eq_body : loop_body' i (X, Y) = Ok (X, Y).
    by apply: loop_body_drawing => // _; exact: one_before.
  exists (X, Y); rewrite eq_body addn0.
  by split=> //; split=> //; exists appended.
have X_gt0 : (0 < size X)%N by rewrite X_eq.
have [scores [k [_ _ lt_k ->]]] :=
  @loop_body_sampling empty_array_truth acq noise param acq_script noise_gt0
    i X Y i_gt3 eq_size X_gt0.
eexists; split; first by [].
  split; first by rewrite /= !size_rcons eq_size.
  exists (rcons appended (nth 0 grid k)); split; first by rewrite /= X_eq.
  move=> x; rewrite mem_rcons inE => /orP [/eqP ->|/on_grid //].
  by exists k.
by rewrite /= size_rcons addn1.
Qed.

Lemma for_range_seeded (a b : nat) (st : seq R * seq R) :
  seeded x0 st -> ((a <= 3)%N -> size st.1 = 1) ->
  exists st',
    [/\ for_range loop_body' (iota a b) st = Ok st', seeded x0 st'
      & size st'.1 = (size st.1 + count (fun i => 3 < i) (iota a b))%N].
Proof.
elim: b a st => [|b IH] a st seeded_st one_before /=.
  by exists st; rewrite addn0.
have [st1 [-> seeded1 size1]] := loop_body_seeded seeded_st one_before.
have one_before1 : (a.+1 <= 3)%N -> size st1.1 = 1.
  move=> a_lt3; have a_le3 : (a <= 3)%N by exact: ltnW.
  by rewrite size1 ltnNge a_le3 addn0; exact: one_before.
have [st2 [eq2 seeded2 size2]] := IH a.+1 st1 seeded1 one_before1.
by exists st2; split=> //=; rewrite size2 size1 addnA.
Qed.

Lemma run_seeded :
  exists st,
    [/\ run empty_array_truth acq noise param x0 = Ok st, seeded x0 st
      & size st.1 = 20].
Proof.
pose X := [:: x0]; pose Y := [seq objective_value x | x <- X].
have noise_neq0 : noise <> 0 by exact: Rgt_not_eq noise_gt0.
have seeded0 : seeded x0 (X, Y) by split=> //; exists [::].
have [st [eq_st seeded_st size_st]] :=
  @for_range_seeded 0 (n + 3)%N _ seeded0 (fun _ => erefl _).
have [eq_size _] := seeded_st.
exists st; split=> //.
rewrite /run (objectives_ge0 _ (Rlt_le _ _ noise_gt0)).
rewrite bind_Ok -/X -/Y eq_st bind_Ok.
by rewrite (@save_plot_returns _ _ _ _ _ (last 0%Re st.1 != 0)).
Qed.

End WholeRun.

(** C9: in every pass of the loop that samples (i > 3, after the seed and
    the opening frames), with as many y as x, at least one observation
    and noise > 0, the body returns the state in which exactly one x and
    one y have been appended: the x is the grid point at the first index
    that holds a maximum of the acquisition scores (that index is
    unique), the y is what objective_function returns at that x; the two
    lengths stay equal and grow by one. *)
Theorem C9_iteration_appends_first_argmax
    (empty_array_truth : result bool) (acq : acquisition) (noise param : R)
    (i : nat) (X Y : seq R) :
  script_acquisition acq -> (0 < noise)%Re ->
  (3 < i)%N -> size X = size Y -> (0 < size X)%N ->
  exists scores k,
    let new_x := nth 0 grid k in
    let new_y := objective_value new_x in
    [/\ acq grid X Y noise param = Ok scores,
        first_argmax scores k /\ (forall k', first_argmax scores k' -> k' = k),
        objective_function new_x noise = Ok new_y
        /\ loop_body empty_array_truth acq noise param i (X, Y)
           = Ok (rcons X new_x, rcons Y new_y),
        size (rcons X new_x) = (size X).+1
        /\ size (rcons Y new_y) = (size Y).+1
      & size (rcons X new_x) = size (rcons Y new_y)].
Proof.
move=> acq_script noise_gt0 i_gt3 eq_size X_gt0.
have [scores [k [eq_scores arg_k lt_k eq_body]]] :=
  @loop_body_sampling empty_array_truth acq noise param acq_script noise_gt0
    i X Y i_gt3 eq_size X_gt0.
exists scores, k; split=> //.
- by split=> // k' arg_k'; exact: first_argmax_uniq arg_k' arg_k.
- by split=> //; apply: objective_function_ge0; exact: Rlt_le.
- by rewrite !size_rcons.
- by rewrite !size_rcons eq_size.
Qed.

Lemma C9_witness :
  exists scores k,
    exp_imp grid [:: 5%Re] [:: objective_value 5]
      (1 / 10)%Re (1 / 10)%Re = Ok scores
    /\ loop_body (Ok false) exp_imp (1 / 10)%Re (1 / 10)%Re 4
         ([:: 5%Re], [:: objective_value 5])
       = Ok ([:: 5%Re; nth 0%Re grid k],
             [:: objective_value 5; objective_value (nth 0%Re grid k)]).
Proof.
have noise_gt0 : (0 < 1 / 10)%Re by Lra.lra.
have [scores [k [eq_scores _ [_ eq_body] _ _]]] :=
  @C9_iteration_appends_first_argmax (Ok false) exp_imp (1 / 10)%Re
    (1 / 10)%Re 4 [:: 5%Re] [:: objective_value 5]
    (Or31 _ _ (erefl _)) noise_gt0 (erefl _) (erefl _) (erefl _).
by exists scores, k.
Defined.

(** C10: in each of the three runs of the script (noise > 0), from any
    seed x0, the run returns observations X = x0 :: appended, 20 of them
    with as many y, and every appended x is a point of the grid
    np.linspace(0, 10, 100), that is k * 10/99 for some k < 100, hence
    within the bounds [0, 10]. *)
Theorem C10_samples_on_grid
    (empty_array_truth : result bool) (acq : acquisition) (noise param : R)
    (x0 : R) :
  script_acquisition acq -> (0 < noise)%Re ->
  exists X Y appended,
    [/\ run empty_array_truth acq noise param x0 = Ok (X, Y),
        X = x0 :: appended /\ size X = 20,
        size Y = size X
      & forall x, x \in appended ->
          [/\ x \in linspace bounds.1 bounds.2 100,
              exists2 k, (k < 100)%N & x = (INR k * (10 / 99))%Re
            & (bounds.1 <= x <= bounds.2)%Re]].
Proof.
move=> acq_script noise_gt0.
have [[X Y] [eq_run [/= eq_size [appended [X_eq on_grid]]] size_X]] :=
  @run_seeded empty_array_truth acq noise param x0 acq_script noise_gt0.
exists X, Y, appended; split=> // x /on_grid [k lt_k ->]; split.
- by apply: mem_nth; rewrite -/grid size_grid.
- by exists k => //; exact: nth_grid.
- exact: grid_bounds.
Qed.

Lemma C10_witness :
  exists X Y appended,
    [/\ ei_run (Ok false) 5 = Ok (X, Y), X = 5%Re :: appended, size X = 20
      & forall x, x \in appended -> (0 <= x <= 10)%Re].
Proof.
have noise_gt0 : (0 < 1 / 10)%Re by Lra.lra.
have [X [Y [appended [eq_run [X_eq size_X] _ on_grid]]]] :=
  @C10_samples_on_grid (Ok false) exp_imp (1 / 10)%Re (1 / 10)%Re 5
    (Or31 _ _ (erefl _)) noise_gt0.
exists X, Y, appended; split=> // x x_in.
by have [_ _] := on_grid x x_in.
Defined.
(* ===================================================================== *)
(* 17. Further facts on the posterior, the scores and the effects        *)
(* ===================================================================== *)

(* Lists, and the posterior mean as a function of the observed values. *)
Section ListFacts.

Lemma map2_map (I A B C : Type) (f : A -> B -> C) (g : I -> A) (h : I -> B)
    (s : seq I) :
  map2 f (map g s) (map h s) = [seq f (g i) (h i) | i <- s].
Proof. by elim: s => //= i s; rewrite /map2 /= => ->. Qed.

Lemma size_map2 (A B C : Type) (f : A -> B -> C) (s : seq A) (t : seq B) :
  size (map2 f s t) = minn (size s) (size t).
Proof. by rewrite /map2 size_map size_zip. Qed.

Lemma nth_map2 (f : R -> R -> R) (s t : seq R) (k : nat) :
  (k < size s)%N -> (k < size t)%N ->
  nth 0%Re (map2 f s t) k = f (nth 0%Re s k) (nth 0%Re t k).
Proof.
move=> lt_s lt_t; rewrite /map2 (nth_map (0%Re, 0%Re)) ?nth_zip_cond.
  by rewrite size_zip leq_min lt_s lt_t.
by rewrite size_zip leq_min lt_s lt_t.
Qed.

End ListFacts.

Section MeanLinear.

Variables (X prev_x y1 y2 : seq R) (noise c : R).
Hypothesis size1 : size y1 = size prev_x.
Hypothesis size2 : size y2 = size prev_x.

Let y := map2 (fun a b => (c * a + b)%Re) y1 y2.

Lemma posterior_mean_linear (i : 'I_(size X)) :
  posterior_mean X prev_x y noise i
  = c * posterior_mean X prev_x y1 noise i + posterior_mean X prev_x y2 noise i.
Proof.
rewrite /posterior_mean big_distrr /= -big_split /=.
apply: eq_bigr => k _; rewrite big_distrr /= -big_split /=.
apply: eq_bigr => l _; rewrite /y nth_map2 ?size1 ?size2 //.
by toR; ring.
Qed.

End MeanLinear.

(* What the scores that the acquisition functions return are made of. *)
Section FiniteScores.

Lemma Ok_inj (A : Type) (a b : A) : Ok a = Ok b -> a = b.
Proof. by case. Qed.

Lemma EI_formula_fin (d s : R) :
  s <> 0 ->
  EI_formula d (Fin s)
  = Fin (d * std_cdf (d / s) + s * std_pdf (d / s))%Re.
Proof. by move=> s_neq0; rewrite /EI_formula fdiv_fin. Qed.

Lemma fitted_gaus_inv (Q prev_x prev_y : seq R) (noise : R)
    (r : seq R * 'M[R]_(size Q)) :
  fitted_gaus Q prev_x prev_y noise = Ok r ->
  Sigma_oo prev_x noise \in unitmx /\ size prev_x = size prev_y.
Proof. by rewrite fitted_gausE; case: ifP => // _; case: eqP => // <-. Qed.

Lemma sqrt_var_le1 (v : R) : (0 <= v <= 1)%Re -> (0 <= sqrt v <= 1)%Re.
Proof.
move=> [v_ge0 v_le1]; split; first exact: sqrt_pos.
by rewrite -sqrt_1; exact: sqrt_le_1_alt.
Qed.

Lemma all_finite_map (I : Type) (F : I -> npfloat) (s : seq I) :
  (forall i, exists r, F i = Fin r) -> all is_finite (map F s).
Proof.
by move=> finF; elim: s => //= i s ->; have [r ->] := finF i.
Qed.

Lemma tiny_gt0 : (0 < 1 / 10 ^ 9)%Re.
Proof. by apply: Rdiv_lt_0_compat; [Lra.lra | apply: pow_lt; Lra.lra]. Qed.

Variables (X prev_x prev_y : seq R) (noise param : R) (scores : seq npfloat).

(* What a returned array of scores is made of. *)
Lemma exp_imp_inv :
  exp_imp X prev_x prev_y noise param = Ok scores ->
  exists best,
    [/\ Sigma_oo prev_x noise \in unitmx, size prev_x = size prev_y,
        np_max (observed_means prev_x prev_y noise) = Ok best
      & scores
        = [seq EI_formula
                 (posterior_mean X prev_x prev_y noise i - best - param)%Re
                 (np_sqrt (posterior_cov X prev_x noise i i))
          | i <- enum 'I_(size X)]].
Proof.
move=> eq_scores.
have [unit_oo eq_size] :
    Sigma_oo prev_x noise \in unitmx /\ size prev_x = size prev_y.
  move: eq_scores; rewrite /exp_imp.
  case E : (fitted_gaus X prev_x prev_y noise) => [r|e] //= _.
  exact: fitted_gaus_inv E.
case max_eq : (np_max (observed_means prev_x prev_y noise)) => [best|e];
  last first.
  move: eq_scores; rewrite /exp_imp !fitted_gaus_Ok //=.
  by rewrite -/(observed_means _ _ _) max_eq.
rewrite (exp_impE _ eq_size unit_oo _ max_eq) in eq_scores.
by exists best; split=> //; rewrite -(Ok_inj eq_scores).
Qed.

Lemma prob_imp_inv :
  prob_imp X prev_x prev_y noise param = Ok scores ->
  exists best,
    [/\ Sigma_oo prev_x noise \in unitmx, size prev_x = size prev_y,
        np_max (observed_means prev_x prev_y noise) = Ok best
      & scores
        = [seq norm_cdf
                 (fdiv (Fin (posterior_mean X prev_x prev_y noise i
                             - best - param)%Re)
                       (fadd (np_sqrt (posterior_cov X prev_x noise i i))
                             (Fin (1 / 10 ^ 9)%Re)))
          | i <- enum 'I_(size X)]].
Proof.
move=> eq_scores.
have [unit_oo eq_size] :
    Sigma_oo prev_x noise \in unitmx /\ size prev_x = size prev_y.
  move: eq_scores; rewrite /prob_imp.
  case E : (fitted_gaus X prev_x prev_y noise) => [r|e] //= _.
  exact: fitted_gaus_inv E.
case max_eq : (np_max (observed_means prev_x prev_y noise)) => [best|e];
  last first.
  move: eq_scores; rewrite /prob_imp !fitted_gaus_Ok //=.
  by rewrite -/(observed_means _ _ _) max_eq.
rewrite (prob_impE _ eq_size unit_oo _ max_eq) in eq_scores.
by exists best; split=> //; rewrite -(Ok_inj eq_scores).
Qed.

Lemma upper_conf_bound_inv :
  upper_conf_bound X prev_x prev_y noise param = Ok scores ->
  [/\ Sigma_oo prev_x noise \in unitmx, size prev_x = size prev_y
    & scores
      = [seq fadd (Fin (posterior_mean X prev_x prev_y noise i))
                  (fmul (Fin param)
                        (np_sqrt (posterior_cov X prev_x noise i i)))
        | i <- enum 'I_(size X)]].
Proof.
move=> eq_scores.
have [unit_oo eq_size] :
    Sigma_oo prev_x noise \in unitmx /\ size prev_x = size prev_y.
  move: eq_scores; rewrite /upper_conf_bound.
  case E : (fitted_gaus X prev_x prev_y noise) => [r|e] //= _.
  exact: fitted_gaus_inv E.
rewrite (upper_conf_boundE _ eq_size unit_oo) in eq_scores.
by split=> //; rewrite -(Ok_inj eq_scores).
Qed.

(* One score per candidate. *)
Lemma acq_size (acq : acquisition) :
  script_acquisition acq ->
  acq X prev_x prev_y noise param = Ok scores -> size scores = size X.
Proof.
case=> ->.
- by case/exp_imp_inv => best [_ _ _ ->]; rewrite size_ord_map.
- by case/prob_imp_inv => best [_ _ _ ->]; rewrite size_ord_map.
- by case/upper_conf_bound_inv => _ _ ->; rewrite size_ord_map.
Qed.

End FiniteScores.

Section ObservedMeans.

Variables (prev_x prev_y : seq R).
Hypothesis unit_oo : Sigma_oo prev_x 0 \in unitmx.

(* Without noise the posterior means at the observed points are the
   observed values. *)
Lemma observed_mean_noiseless (k : 'I_(size prev_x)) :
  posterior_mean prev_x prev_x prev_y 0 k = nth 0%Re prev_y k.
Proof. exact: (noiseless_mean prev_y unit_oo (erefl (nth 0%Re prev_x k))). Qed.

Lemma best_mean_noiseless (best : R) :
  np_max (observed_means prev_x prev_y 0) = Ok best ->
  (exists k : 'I_(size prev_x), best = nth 0%Re prev_y k)
  /\ forall k : 'I_(size prev_x), (nth 0%Re prev_y k <= best)%Re.
Proof.
move=> /np_max_is_max [/mapP [k _ ->] le_best]; split.
  by exists k; exact: observed_mean_noiseless.
move=> l; rewrite -observed_mean_noiseless; apply: le_best.
by apply: map_f; rewrite mem_enum.
Qed.

End ObservedMeans.

(* The whole posterior covariance is positive semi-definite: with
   u = v Sigma_qo Sigma_oo^-1, v cov v^T is the quadratic form of the
   kernel matrix of the query and observed points together at (v, -u),
   plus noise^2 |u|^2. *)
Section PosteriorPsd.

Lemma quadratic_mxE (m : nat) (A : 'M[R]_m) (r : 'rV[R]_m) :
  (r *m A *m r^T) 0 0 = \sum_i \sum_j r 0 i * r 0 j * A i j.
Proof.
rewrite mxE exchange_big /=; apply: eq_bigr => j _.
rewrite !mxE big_distrl /=; apply: eq_bigr => i _.
by rewrite mulrAC.
Qed.

Variables (X prev_x : seq R) (noise : R).
Hypothesis unit_oo : Sigma_oo prev_x noise \in unitmx.

Let mq := size X.
Let mo := size prev_x.
Let Soo : 'M[R]_mo := Sigma_oo prev_x noise.
Let cov : 'M[R]_mq :=
  Kmx X X - Kmx X prev_x *m invmx Soo *m Kmx prev_x X.

Let points (j : 'I_(mq + mo)) : R :=
  match fintype.split j with
  | inl i => nth 0%Re X i
  | inr l => nth 0%Re prev_x l
  end.

Let KK : 'M[R]_(mq + mo) :=
  block_mx (Kmx X X) (Kmx X prev_x) (Kmx prev_x X) (Kmx prev_x prev_x).

Lemma joint_kernelE (i j : 'I_(mq + mo)) : KK i j = K 1 (points i) (points j).
Proof.
rewrite /KK /block_mx /points mxE; case: (fintype.split i) => i'; rewrite mxE;
  by case: (fintype.split j) => j'; rewrite mxE.
Qed.

Lemma joint_kernel_psd (V : 'rV[R]_(mq + mo)) : Rle 0 ((V *m KK *m V^T) 0 0).
Proof.
rewrite quadratic_mxE.
have := @K_psd 1 _ points (V 0) R1_neq_R0; congr (0 <= _)%Re.
by apply: eq_bigr => i _; apply: eq_bigr => j _; rewrite joint_kernelE.
Qed.

Variable v : 'rV[R]_mq.
Let u : 'rV[R]_mo := v *m Kmx X prev_x *m invmx Soo.

Lemma posterior_quadratic :
  v *m cov *m v^T
  = row_mx v (- u) *m KK *m (row_mx v (- u))^T + (noise ^ 2)%Re *: (u *m u^T).
Proof.
have uS : u *m Soo = v *m Kmx X prev_x by rewrite /u mulmxKV.
have Koo : Kmx prev_x prev_x = Soo - (noise ^ 2)%Re *: 1%:M.
  by rewrite /Soo -sigma_bbE /eye addrK.
have uK : u *m Kmx prev_x prev_x = v *m Kmx X prev_x - (noise ^ 2)%Re *: u.
  by rewrite Koo mulmxBr uS -scalemxAr mulmx1.
rewrite /KK mul_row_block tr_row_mx mul_row_col !mulNmx uK.
rewrite opprB addrCA subrr addr0 linearN /= mulmxN -scalemxAl subrK.
by rewrite /cov mulmxBr !mulmxBl !mulmxA.
Qed.

Lemma posterior_quadratic_ge0 :
  (0 <= \sum_i \sum_j v 0 i * v 0 j * cov i j)%Re.
Proof.
rewrite -quadratic_mxE posterior_quadratic mxE [X in (_ + X)%R]mxE.
have V_ge0 := joint_kernel_psd (row_mx v (- u)).
have u_ge0 : Rle 0 ((u *m u^T) 0 0).
  rewrite mxE; apply: sum_Rge0 => l _; rewrite [u^T _ _]mxE; toR.
  exact: (Rle_0_sqr (u 0 l)).
have n_ge0 := pow2_ge_0 noise.
have nu_ge0 := Rmult_le_pos _ _ n_ge0 u_ge0.
exact: Rplus_le_le_0_compat V_ge0 nu_ge0.
Qed.

End PosteriorPsd.

Section NoiselessVariance.

Variables (X prev_x : seq R).
Hypothesis unit_oo : Sigma_oo prev_x 0 \in unitmx.

Lemma uniq_of_unit : uniq prev_x.
Proof. by move: unit_oo; rewrite Sigma_oo_unitE eqxx. Qed.

(* Without noise the variance at a query point is 0 exactly when the point
   has been observed. *)
Lemma noiseless_var_eq0 (i : 'I_(size X)) :
  posterior_cov X prev_x 0 i i = 0 <-> nth 0%Re X i \in prev_x.
Proof.
split=> [var0|/(nthP 0%Re) [k lt_k eq_k]]; last first.
  exact: (@noiseless_cov X prev_x unit_oo i (Ordinal lt_k) (esym eq_k)).
apply/negPn/negP => not_obs.
have uniq_q : uniq (nth 0%Re X i :: prev_x) by rewrite /= not_obs uniq_of_unit.
have := @posterior_var_noiseless_gt0 X prev_x 0 i unit_oo (erefl _) uniq_q.
by rewrite var0; exact: Rlt_irrefl.
Qed.

End NoiselessVariance.

(* The distribution function of the standard normal law is monotone. *)
Section NormalCdf.

Lemma std_pdf_gt0 (t : R) : (0 < std_pdf t)%Re.
Proof.
rewrite /std_pdf; apply: Rdiv_lt_0_compat; first exact: exp_pos.
by apply: sqrt_lt_R0; have := PI_RGT_0; Lra.lra.
Qed.

(* The integral of the density over an interval in the positive
   direction is not negative. *)
Lemma std_pdf_integral_ge0 (a b : R) :
  (a <= b)%Re -> (0 <= RiemannInt (std_pdf_integrable a b))%Re.
Proof.
move=> le_ab.
have := @RiemannInt_P19 (fct_cte 0) std_pdf a b (RiemannInt_P14 a b 0)
          (std_pdf_integrable a b) le_ab.
rewrite RiemannInt_P15 Rmult_0_l; apply=> x _.
by rewrite /fct_cte; apply/Rlt_le/std_pdf_gt0.
Qed.

(* Phi is non-decreasing. *)
Lemma std_cdf_mono (z1 z2 : R) :
  (z1 <= z2)%Re -> (std_cdf z1 <= std_cdf z2)%Re.
Proof.
move=> le_z; rewrite /std_cdf.
have := RiemannInt_P26 (std_pdf_integrable 0 z1) (std_pdf_integrable z1 z2)
          (std_pdf_integrable 0 z2).
have := std_pdf_integral_ge0 le_z.
by Lra.lra.
Qed.

Lemma std_cdf_ge_half (z : R) : (0 <= z)%Re -> (1 / 2 <= std_cdf z)%Re.
Proof. by move=> z_ge0; rewrite -std_cdf0; exact: std_cdf_mono. Qed.

Lemma std_cdf_le_half (z : R) : (z <= 0)%Re -> (std_cdf z <= 1 / 2)%Re.
Proof. by move=> z_le0; rewrite -std_cdf0; exact: std_cdf_mono. Qed.

(* The density is larger nearer to 0. *)
Lemma std_pdf_le (x z : R) :
  (x * x <= z * z)%Re -> (std_pdf z <= std_pdf x)%Re.
Proof.
move=> le_sq; rewrite /std_pdf /Rdiv; apply: Rmult_le_compat_r.
  by apply/Rlt_le/Rinv_0_lt_compat/sqrt_lt_R0; have := PI_RGT_0; Lra.lra.
have [lt_arg|->] : (- (z * z) * / 2 < - (x * x) * / 2
                    \/ - (z * z) * / 2 = - (x * x) * / 2)%Re.
- by case: le_sq => [lt_sq|->]; [left; Lra.lra | right].
- exact/Rlt_le/exp_increasing.
exact: Rle_refl.
Qed.

(* Over an interval on one side of 0 the integral of the density is at
   least the length times the density at the far end. *)
Lemma std_pdf_integral_ge (a b far : R) :
  (a <= b)%Re ->
  (forall x, (a < x < b)%Re -> (x * x <= far * far)%Re) ->
  (std_pdf far * (b - a) <= RiemannInt (std_pdf_integrable a b))%Re.
Proof.
move=> le_ab nearer.
have := @RiemannInt_P19 (fct_cte (std_pdf far)) std_pdf a b
          (RiemannInt_P14 a b (std_pdf far)) (std_pdf_integrable a b) le_ab.
rewrite RiemannInt_P15; apply=> x x_in.
by rewrite /fct_cte; apply: std_pdf_le; exact: nearer.
Qed.

Lemma std_cdf_gt_half (z : R) : (0 < z)%Re -> (1 / 2 < std_cdf z)%Re.
Proof.
move=> z_gt0; rewrite /std_cdf.
have : (0 < std_pdf z * (z - 0))%Re.
  by apply: Rmult_lt_0_compat; [exact: std_pdf_gt0 | Lra.lra].
suff : (std_pdf z * (z - 0) <= RiemannInt (std_pdf_integrable 0 z))%Re.
  by Lra.lra.
by apply: std_pdf_integral_ge; [Lra.lra | move=> x x_in; Lra.nra].
Qed.

Lemma std_cdf_lt_half (z : R) : (z < 0)%Re -> (std_cdf z < 1 / 2)%Re.
Proof.
move=> z_lt0; rewrite /std_cdf.
rewrite (RiemannInt_P8 (std_pdf_integrable 0 z) (std_pdf_integrable z 0)).
have : (0 < std_pdf z * (0 - z))%Re.
  by apply: Rmult_lt_0_compat; [exact: std_pdf_gt0 | Lra.lra].
suff : (std_pdf z * (0 - z) <= RiemannInt (std_pdf_integrable z 0))%Re.
  by Lra.lra.
by apply: std_pdf_integral_ge; [Lra.lra | move=> x x_in; Lra.nra].
Qed.

End NormalCdf.

(* The functions with effects, as equations on the world. *)
Section Effects.

Variable z : nat -> R.
Variable empty_array_truth : result bool.

Local Notation objective_function' := (Eff.objective_function z).
Local Notation show_plot' := (Eff.show_plot z).
Local Notation save_plot' := (Eff.save_plot z empty_array_truth).
Local Notation loop_body' := (Eff.loop_body z empty_array_truth).
Local Notation run' := (Eff.run z empty_array_truth).

Lemma advance0 (w : Eff.world) : advance 0 [::] w = w.
Proof. by case: w => d c; rewrite /advance /= addn0 cats0. Qed.

Lemma advance_advance (k k' : nat) (es es' : seq event) (w : Eff.world) :
  advance k' es' (advance k es w) = advance (k + k') (es ++ es') w.
Proof. by rewrite /advance /= addnA catA. Qed.

Lemma emitE (e : event) (w : Eff.world) :
  Eff.emit e w = Eff.Done tt (advance 0 [:: e] w).
Proof. by rewrite /Eff.emit /advance addn0 cats1. Qed.

Lemma saved_advance (k : nat) (es : seq event) (w : Eff.world) :
  saved (advance k es w) = saved w ++ pmap is_savefig es.
Proof. by rewrite /saved /= pmap_cat. Qed.

(* The value of the objective does not depend on the draw. *)
Lemma objective_functionE (x noise : R) (w : Eff.world) :
  objective_function' x noise w
  = if Rltb noise 0 then Eff.Failed (Eff.NumPy ValueError)
    else Eff.Done (objective_value x) (advance 1 [::] w).
Proof.
rewrite /Eff.objective_function /Eff.mix_function /Eff.ebind /Eff.normal.
by case: Rltb => //; rewrite /advance addn1 cats0.
Qed.

Lemma for_each_objective (noise : R) (xs : seq R) (w : Eff.world) :
  ~~ Rltb noise 0 ->
  Eff.for_each (fun x => objective_function' x noise) xs w
  = Eff.Done [seq objective_value x | x <- xs]
             (advance (size xs) [::] w).
Proof.
move=> /negbTE noise_ge0; elim: xs w => [|x xs IH] w.
  by rewrite /= /Eff.eret advance0.
rewrite /= /Eff.ebind objective_functionE noise_ge0 IH /Eff.eret.
by rewrite advance_advance add1n.
Qed.

Lemma show_plotE (X Y : seq R) (noise : R) (title : String.string)
    (obj gaus legend : bool) (w : Eff.world) :
  show_plot' X Y noise title obj gaus legend w
  = match fitted_gaus grid X Y noise with
    | Ok (means, cov_mat) =>
        Eff.Done tt
          (advance 100
             (show_events X Y means cov_mat title obj gaus legend) w)
    | Raise e => Eff.Failed (Eff.NumPy e)
    end.
Proof.
have zero_ge0 : ~~ Rltb 0 0 by apply/negP => /RltbP /Rlt_irrefl.
rewrite /Eff.show_plot -/grid /Eff.ebind (for_each_objective _ _ zero_ge0).
have -> : advance (size grid) [::] w = advance 100 [::] w by rewrite size_grid.
rewrite /Eff.lift.
case: (fitted_gaus grid X Y noise) => [[means cov_mat]|e] //.
rewrite /show_events -/grid.
by case: obj; case: gaus; case: legend;
   rewrite ?emitE /Eff.eret ?emitE !advance_advance.
Qed.

Lemma save_plotE (X Y : seq R) (noise : R) (title : String.string)
    (obj gaus legend : bool) (new_x : pyval) (i : nat) (w : Eff.world) :
  save_plot' X Y noise title obj gaus legend new_x i w
  = match fitted_gaus grid X Y noise with
    | Ok (means, cov_mat) =>
        match truth empty_array_truth new_x with
        | Ok line =>
            Eff.Done tt
              (advance 100
                 (frame_events
                    (show_events X Y means cov_mat title obj gaus true)
                    line new_x i) w)
        | Raise e => Eff.Failed (Eff.NumPy e)
        end
    | Raise e => Eff.Failed (Eff.NumPy e)
    end.
Proof.
rewrite /Eff.save_plot /Eff.ebind emitE show_plotE.
case: (fitted_gaus grid X Y noise) => [[means cov_mat]|e] //.
rewrite /Eff.lift; case: (truth _ _) => [line|e] //.
rewrite /frame_events.
by case: line;
   rewrite ?emitE /Eff.eret ?emitE !advance_advance /= ?cats0 -?catA.
Qed.

End Effects.

(* The frames written by a pass and by a run; the run with its effects
   against the run without them. *)
Section Frames.

Variable z : nat -> R.
Variable empty_array_truth : result bool.

Local Notation save_plot' := (Eff.save_plot z empty_array_truth).
Local Notation loop_body' := (Eff.loop_body z empty_array_truth).
Local Notation run' := (Eff.run z empty_array_truth).

Lemma reported_advance (k : nat) (es : seq event) (w : Eff.world) :
  reported (advance k es w) = reported w ++ pmap is_result es.
Proof. by rewrite /reported /= pmap_cat. Qed.

Lemma show_events_counts (X Y means : seq R)
    (cov_mat : 'M[R]_(size (linspace bounds.1 bounds.2 100)))
    (title : String.string) (obj gaus legend : bool) :
  let shown := show_events X Y means cov_mat title obj gaus legend in
  [/\ pmap is_savefig shown = [::], pmap is_result shown = [::],
      count is_axvline shown = 0
    & count is_legend shown = legend].
Proof. by rewrite /show_events; case: obj; case: gaus; case: legend. Qed.

Lemma frame_events_counts (shown : seq event) (line : bool) (new_x : pyval)
    (i : nat) :
  let frame := frame_events shown line new_x i in
  [/\ pmap is_savefig frame = pmap is_savefig shown ++ [:: Text.frame_path i],
      pmap is_result frame = pmap is_result shown,
      count is_axvline frame = (count is_axvline shown + line)%N
    & count is_legend frame = count is_legend shown].
Proof.
rewrite /frame_events /= !pmap_cat !count_cat.
by case: line; rewrite /= ?addn0 ?cats0.
Qed.

(* The calls of one frame: one file written, nothing reported, the line
   drawn or not, the legend drawn once. *)
Let is_frame (es : seq event) (i : nat) (line : bool) : Prop :=
  [/\ pmap is_savefig es = [:: Text.frame_path i], pmap is_result es = [::],
      count is_axvline es = line
    & count is_legend es = 1].

(* What a frame that has been written has cost and left. *)
Lemma save_plot_inv (X Y : seq R) (noise : R) (title : String.string)
    (obj gaus legend : bool) (new_x : pyval) (i : nat) (w w' : Eff.world) :
  save_plot' X Y noise title obj gaus legend new_x i w = Eff.Done tt w' ->
  exists line es,
    [/\ truth empty_array_truth new_x = Ok line, w' = advance 100 es w
      & is_frame es i line].
Proof.
rewrite save_plotE.
case: (fitted_gaus grid X Y noise) => [[means cov_mat]|e] //.
case: (truth _ _) => [line|e] // [<-].
exists line; eexists; split; try by reflexivity.
have [saved_f result_f line_f legend_f] := frame_events_counts
  (show_events X Y means cov_mat title obj gaus true) line new_x i.
have [saved_s result_s line_s legend_s] :=
  show_events_counts X Y means cov_mat title obj gaus true.
by split; rewrite ?saved_f ?saved_s ?result_f ?result_s ?line_f ?line_s
                  ?legend_f ?legend_s.
Qed.

Lemma save_plot_done (X Y : seq R) (noise : R) (title : String.string)
    (obj gaus legend : bool) (new_x : pyval) (i : nat) (line : bool)
    (w : Eff.world) :
  save_plot empty_array_truth X Y noise new_x = Ok tt ->
  truth empty_array_truth new_x = Ok line ->
  exists es,
    save_plot' X Y noise title obj gaus legend new_x i w
    = Eff.Done tt (advance 100 es w)
    /\ is_frame es i line.
Proof.
rewrite /save_plot show_plot_eq => plot_ok truth_eq.
case eq_w' : (save_plot' X Y noise title obj gaus legend new_x i w)
  => [[] w'|f].
  have [line' [es [truth_eq' -> frame_es]]] := save_plot_inv eq_w'.
  exists es; split=> //.
  by move: truth_eq' frame_es; rewrite truth_eq => -[->].
move: eq_w'; rewrite save_plotE truth_eq.
by case: (fitted_gaus grid X Y noise) plot_ok => [[means cov_mat]|e].
Qed.

Variables (acq : acquisition) (noise param : R).
Hypothesis acq_script : script_acquisition acq.
Hypothesis noise_gt0 : (0 < noise)%Re.

Let noise_neq0 : noise <> 0.
Proof. by move: noise_gt0; toR; Lra.lra. Qed.

Let noise_ge0 : Rltb noise 0 = false.
Proof. by apply/negbTE/negP => /RltbP; move: noise_gt0; Lra.lra. Qed.

(* The calls of some passes: the files written, nothing reported. *)
Let are_frames (es : seq event) (range : seq nat) : Prop :=
  pmap is_savefig es = [seq Text.frame_path j | j <- range]
  /\ pmap is_result es = [::].

(* One pass of the loop, in the two models. *)
Lemma pass_sim (i : nat) (X Y : seq R) (new_x : option R) (w : Eff.world) :
  size X = size Y -> (0 < size X)%N -> (i = 3 -> size X = 1%N) ->
  exists X' Y' new_x' k es,
    [/\ loop_body empty_array_truth acq noise param i (X, Y) = Ok (X', Y'),
        loop_body' acq noise param i (X, Y, new_x) w
        = Eff.Done (X', Y', new_x') (advance k es w),
        are_frames es [:: i],
        size X' = size Y' /\ (size X <= size X')%N
      & (3 < i)%N -> new_x' = Some (last 0%Re X') /\ (1 < size X')%N].
Proof.
move=> eq_size X_gt0 one_at_3.
case: (ltnP 3 i) => [i_gt3|i_le3]; last first.
  have pure :=
    @loop_body_drawing empty_array_truth acq noise param noise_gt0 i X Y
      i_le3 eq_size one_at_3.
  have [es [line [eq_w [saved_es result_es _ _]]]] :
      exists es line,
        loop_body' acq noise param i (X, Y, new_x) w
        = Eff.Done (X, Y, new_x) (advance 100 es w)
        /\ is_frame es i line.
    case: i i_le3 one_at_3 {pure} => [|[|[|[|i]]]] // _ one_at_3;
      rewrite /Eff.loop_body /Eff.ebind /=.
    - have [es [-> frame_es]] :=
        @save_plot_done [::] [::] noise String.EmptyString true false true
          PyNone 0 false w (save_plot_empty _ noise) (erefl _).
      by exists es, false; split; [reflexivity | exact: frame_es].
    - have [es [-> frame_es]] :=
        @save_plot_done [::] [::] noise String.EmptyString true true true
          PyNone 1 false w (save_plot_empty _ noise) (erefl _).
      by exists es, false; split; [reflexivity | exact: frame_es].
    - have [es [-> frame_es]] :=
        @save_plot_done [::] [::] noise (Text.iter_title 0) false true true
          PyNone 2 false w (save_plot_empty _ noise) (erefl _).
      by exists es, false; split; [reflexivity | exact: frame_es].
    have truth_X :
        size X = 1%N ->
        exists line, truth empty_array_truth (PyArray X) = Ok line.
      by case: (X) => [|x0 [|x1 s]] // _; eexists.
    have [line truth_eq] := truth_X (one_at_3 (erefl _)).
    have [es [-> frame_es]] :=
      @save_plot_done X Y noise (Text.iter_title 1) false true true
        (PyArray X) 3 line w
        (save_plot_returns noise_neq0 eq_size truth_eq) truth_eq.
    by exists es, line; split; [reflexivity | exact: frame_es].
  by exists X, Y, new_x, 100, es; split=> //; rewrite ltnNge i_le3.
have [scores [eq_scores size_scores]] :=
  acq_returns param acq_script noise_gt0 grid eq_size X_gt0.
have [k eq_k] : exists k, argmax scores = Ok k.
  by apply: argmax_returns; rewrite size_scores size_grid.
have lt_k : (k < 100)%N.
  by have [] := argmax_spec eq_k; rewrite size_scores size_grid.
pose x := nth 0%Re grid k.
pose X' := rcons X x; pose Y' := rcons Y (objective_value x).
have eq_size' : size X' = size Y' by rewrite !size_rcons eq_size.
have plot_ok :
    save_plot empty_array_truth X' Y' noise (PyFloat x) = Ok tt.
  exact: (@save_plot_returns _ _ _ _ _ (x != 0)).
have pure_ge0 : (0 <= noise)%Re by exact: Rlt_le.
pose w1 := Eff.World (Eff.drawn w) (rcons (Eff.calls w) (PrintIteration i x)).
have w1E : w1 = advance 0 [:: PrintIteration i x] w.
  by rewrite /w1 /advance addn0 cats1.
have [es [eq_w [saved_es result_es _ _]]] :=
  @save_plot_done X' Y' noise (Text.iter_title (i - 1)) false true true
    (PyFloat x) i (x != 0) (advance 1 [::] w1) plot_ok (erefl _).
exists X', Y', (Some x), 101, (PrintIteration i x :: es); split=> //.
- case: i i_gt3 {one_at_3 eq_w saved_es w1 w1E} => [|[|[|[|i]]]] // _.
  rewrite /loop_body /= -/grid eq_scores /= eq_k /= /getitem size_grid lt_k /=.
  by rewrite -/x objective_function_ge0 //= /np_append -/X' -/Y' plot_ok.
- case: i i_gt3 @w1 w1E eq_w {one_at_3 saved_es}
    => [|[|[|[|i]]]] // _ w1 w1E eq_w.
  rewrite /Eff.loop_body /Eff.ebind /= -/grid eq_scores /= eq_k /=.
  rewrite /getitem size_grid lt_k /= -/x -/w1 objective_functionE noise_ge0.
  rewrite /np_append -/X' -/Y' eq_w /Eff.eret w1E !advance_advance.
  by rewrite add0n add1n.
- by split=> //; rewrite size_rcons.
by move=> _; rewrite /X' last_rcons size_rcons.
Qed.

Lemma for_range_cons (body : nat -> seq R * seq R -> result (seq R * seq R))
    (j : nat) (range : seq nat) (st : seq R * seq R) :
  for_range body (j :: range) st
  = bind (body j st) (fun st' => for_range body range st').
Proof. by []. Qed.

Lemma eff_for_range_cons (body : nat -> Eff.globals -> Eff.eff Eff.globals)
    (j : nat) (range : seq nat) (i : option nat) (st : Eff.globals)
    (w : Eff.world) :
  Eff.for_range body (j :: range) i st w
  = Eff.ebind (body j st)
      (fun st' => Eff.for_range body range (Some j) st') w.
Proof. by []. Qed.

(* The passes a, a + 1, ..., a + b - 1, in the two models. *)
Lemma for_range_sim (b a : nat) (X Y : seq R) (new_x : option R)
    (i : option nat) (w : Eff.world) :
  size X = size Y -> (0 < size X)%N -> ((a <= 3)%N -> size X = 1%N) ->
  exists X' Y' new_x' k es,
    [/\ for_range (loop_body empty_array_truth acq noise param) (iota a b)
          (X, Y)
        = Ok (X', Y'),
        Eff.for_range (loop_body' acq noise param) (iota a b) i
          (X, Y, new_x) w
        = Eff.Done (if b is b'.+1 then Some (a + b')%N else i,
                    (X', Y', new_x')) (advance k es w),
        are_frames es (iota a b),
        size X' = size Y' /\ (0 < size X')%N
      & (4 < a + b)%N -> (0 < b)%N -> new_x' = Some (last 0%Re X')].
Proof.
elim: b a X Y new_x i w => [|b IH] a X Y new_x i w eq_size X_gt0 one_early.
  exists X, Y, new_x, 0, [::]; split=> //.
  by rewrite /= /Eff.eret advance0.
have one_at_3 : a = 3 -> size X = 1%N.
  by move=> a3; apply: one_early; rewrite a3.
have [Xa [Ya [new_xa [ka [esa
       [pure_a eff_a [saved_a result_a] [eq_size_a le_size_a] bound_a]]]]]] :=
  pass_sim new_x w eq_size X_gt0 one_at_3.
have Xa_gt0 : (0 < size Xa)%N by exact: leq_trans X_gt0 le_size_a.
have one_early_a : (a.+1 <= 3)%N -> size Xa = 1%N.
  move=> a_lt3; have a_le3 : (a <= 3)%N by exact: ltnW.
  have := @loop_body_drawing empty_array_truth acq noise param noise_gt0
            a X Y a_le3 eq_size (fun _ => one_early a_le3).
  by rewrite pure_a => -[-> _]; exact: one_early.
have [Xb [Yb [new_xb [kb [esb
       [pure_b eff_b [saved_b result_b] sizes_b bound_b]]]]]] :=
  IH a.+1 Xa Ya new_xa (Some a) (advance ka esa w) eq_size_a Xa_gt0
    one_early_a.
exists Xb, Yb, new_xb, (ka + kb)%N, (esa ++ esb); split=> //.
- by rewrite -[iota a b.+1]/(a :: iota a.+1 b) for_range_cons pure_a.
- rewrite -[iota a b.+1]/(a :: iota a.+1 b) eff_for_range_cons.
  rewrite /Eff.ebind eff_a eff_b advance_advance.
  by case: (b) => [|b']; rewrite ?addn0 ?addSnnS.
- by split; rewrite pmap_cat ?saved_a ?saved_b ?result_a ?result_b.
move=> sum_gt4 _.
case: b {IH} => [|b] in pure_b eff_b saved_b result_b sizes_b bound_b
                        sum_gt4 *.
  have [<- <-] : new_xa = new_xb /\ Xa = Xb.
    have := congr1 (fun o => if o is Eff.Done (_, (X0, _, nx)) _
                             then (nx, X0) else (None, [::])) eff_b.
    by case.
  by have [] := bound_a; rewrite // -ltnS -[X in (_ < X)%N]addn1.
by apply: bound_b => //; rewrite addSnnS.
Qed.

(* A whole run, in the two models. *)
Lemma run_sim (print_seed : bool) (x0 : R) (w : Eff.world) :
  exists X Y k es,
    [/\ run empty_array_truth acq noise param x0 = Ok (X, Y),
        run' acq noise param print_seed x0 w
        = Eff.Done (X, Y) (advance k es w),
        pmap is_savefig es
        = [seq Text.frame_path j | j <- iota 0 (n + 3)]
          ++ [:: Text.frame_path (n + 2)]
      & pmap is_result es = [:: last 0%Re X]].
Proof.
pose Y0 := [seq objective_value x | x <- [:: x0]].
pose seed := if print_seed then [:: PrintSeed [:: x0]] else [::].
have [X [Y [new_x [k [es
       [pure eff [saved_es result_es] [eq_size X_gt0] bound]]]]]] :=
  @for_range_sim (n + 3) 0 [:: x0] Y0 None None (advance 1 seed w)
    (erefl _) (erefl _) (fun _ => erefl _).
have new_x_eq : new_x = Some (last 0%Re X) by exact: bound.
have plot_ok :
    save_plot empty_array_truth X Y noise (PyFloat (last 0%Re X)) = Ok tt.
  exact: (@save_plot_returns _ _ _ _ _ (last 0%Re X != 0)).
have [es' [eq_w [saved_es' result_es' _ _]]] :=
  @save_plot_done X Y noise (Text.iter_title (n + 2 - 2)) true true true
    (PyFloat (last 0%Re X)) (n + 2) (last 0%Re X != 0)
    (advance k es (advance 1 seed w)) plot_ok (erefl _).
exists X, Y, (1 + (k + (100 + 0)))%N,
       (seed ++ es ++ es' ++ [:: PrintResult (last 0%Re X)]); split.
- rewrite /run (objectives_ge0 _ (Rlt_le _ _ noise_gt0)) bind_Ok -/Y0.
  by rewrite pure bind_Ok plot_ok.
- have not_neg : ~~ Rltb noise 0 by rewrite noise_ge0.
  have eff' :
      Eff.for_range (loop_body' acq noise param) (iota 0 (n + 3)) None
        ([:: x0], Y0, None) (advance 1 seed w)
      = Eff.Done (Some (n + 2)%N, (X, Y, new_x))
                 (advance k es (advance 1 seed w)) := eff.
  rewrite /Eff.run /Eff.ebind (for_each_objective _ _ _ not_neg) [size _]/=.
  have -> : (if print_seed then Eff.emit (PrintSeed [:: x0]) else Eff.eret tt)
              (advance 1 [::] w)
            = Eff.Done tt (advance 1 seed w).
    rewrite /seed; case: (print_seed); rewrite ?emitE /Eff.eret.
      by rewrite advance_advance addn0.
    by [].
  rewrite eff' new_x_eq /Eff.ebind eq_w emitE /Eff.eret.
  by rewrite !advance_advance.
- have seed_saved : pmap is_savefig seed = [::].
    by rewrite /seed; case: (print_seed).
  by rewrite !pmap_cat seed_saved saved_es saved_es' /= ?cats0.
have seed_result : pmap is_result seed = [::].
  by rewrite /seed; case: (print_seed).
by rewrite !pmap_cat seed_result result_es result_es'.
Qed.

End Frames.

Section Consistent.

Variable empty_array_truth : result bool.
Variables (acq : acquisition) (noise param : R).
Hypothesis acq_script : script_acquisition acq.
Hypothesis noise_gt0 : (0 < noise)%Re.

Local Notation loop_body' := (loop_body empty_array_truth acq noise param).

(* Every y is the objective at the x of the same index. *)
Let consistent (st : seq R * seq R) : Prop :=
  st.2 = [seq objective_value x | x <- st.1].

Lemma loop_body_consistent (i : nat) (st : seq R * seq R) :
  (0 < size st.1)%N -> consistent st -> ((i <= 3)%N -> size st.1 = 1) ->
  exists st',
    [/\ loop_body' i st = Ok st', consistent st'
      & size st'.1 = (size st.1 + (3 < i))%N].
Proof.
case: st => X Y X_gt0 eq_Y one_before.
rewrite /consistent /= in X_gt0 eq_Y one_before.
have eq_size : size X = size Y by rewrite eq_Y size_map.
case: (leqP i 3) => [i_le3|i_gt3].
  have eq_body : loop_body' i (X, Y) = Ok (X, Y).
    by apply: loop_body_drawing => // _; exact: one_before.
  by exists (X, Y); rewrite eq_body addn0.
have [scores [k [_ _ _ ->]]] :=
  @loop_body_sampling empty_array_truth acq noise param acq_script noise_gt0
    i X Y i_gt3 eq_size X_gt0.
eexists; split; first by reflexivity.
  by rewrite /consistent /= map_rcons -eq_Y.
by rewrite /= size_rcons addn1.
Qed.

Lemma for_range_consistent (a b : nat) (st : seq R * seq R) :
  (0 < size st.1)%N -> consistent st -> ((a <= 3)%N -> size st.1 = 1) ->
  exists st',
    [/\ for_range loop_body' (iota a b) st = Ok st', (0 < size st'.1)%N
      & consistent st'].
Proof.
elim: b a st => [|b IH] a st st_gt0 eq_st one_before /=; first by exists st.
have [st1 [-> eq_st1 size1]] := loop_body_consistent st_gt0 eq_st one_before.
apply: IH => //; first by rewrite size1 addn_gt0 st_gt0.
move=> a_lt3; have a_le3 : (a <= 3)%N by exact: ltnW.
by rewrite size1 ltnNge a_le3 addn0; exact: one_before.
Qed.

Lemma run_consistent (x0 : R) (X Y : seq R) :
  run empty_array_truth acq noise param x0 = Ok (X, Y) ->
  Y = [seq objective_value x | x <- X].
Proof.
pose X0 := [:: x0]; pose Y0 := [seq objective_value x | x <- X0].
have [st [eq_st _ eq_Y]] :=
  @for_range_consistent 0 (n + 3)%N (X0, Y0) (erefl _) (erefl _)
    (fun _ => erefl _).
case: st eq_st eq_Y => Xa Ya eq_st; rewrite /consistent /= => eq_Y.
rewrite /run (objectives_ge0 _ (Rlt_le _ _ noise_gt0)) bind_Ok -/X0 -/Y0.
rewrite eq_st bind_Ok.
by case: (save_plot _ _ _ _ _) => //= _ [<- <-].
Qed.

End Consistent.

(* ===================================================================== *)
(* 18. Properties of the kernel                                          *)
(* ===================================================================== *)

(** X1: swapping the two point arrays transposes the kernel matrix:
    rbf_kernel(x2, x1, sigma) is the transpose of rbf_kernel(x1, x2, sigma),
    so the matrix over one array with itself is symmetric. *)
Theorem X1_kernel_transpose (x1 x2 : seq R) (sigma : R) :
  sigma <> 0 ->
  exists (k12 : 'M[R]_(size x1, size x2)) (k21 : 'M[R]_(size x2, size x1)),
    [/\ rbf_kernel x1 x2 sigma = Ok k12, rbf_kernel x2 x1 sigma = Ok k21
      & k21 = k12^T].
Proof.
move=> _; rewrite !rbf_kernelE; eexists; eexists; split; try by reflexivity.
by apply/matrixP => i j; rewrite !mxE K_sym.
Qed.

Lemma X1_witness :
  (1 <> 0)%Re
  /\ exists (k12 : 'M[R]_(2, 1)) (k21 : 'M[R]_(1, 2)),
       [/\ rbf_kernel [:: 0; 3]%Re [:: 1%Re] 1 = Ok k12,
           rbf_kernel [:: 1%Re] [:: 0; 3]%Re 1 = Ok k21
         & k21 = k12^T].
Proof.
split; first exact: R1_neq_R0.
exact: (@X1_kernel_transpose [:: 0; 3]%Re [:: 1%Re] 1 R1_neq_R0).
Defined.



(** X3: the kernel decreases with distance: if the points of one entry are
    at least as close as those of another, its value is at least as
    large. *)
Theorem X3_kernel_decreasing (x1 x2 : seq R) (sigma : R)
    (k : 'M[R]_(size x1, size x2)) :
  sigma <> 0 ->
  rbf_kernel x1 x2 sigma = Ok k ->
  forall (i i' : 'I_(size x1)) (j j' : 'I_(size x2)),
    (Rabs (nth 0 x1 i - nth 0 x2 j) <= Rabs (nth 0 x1 i' - nth 0 x2 j'))%Re ->
    (k i' j' <= k i j)%Re.
Proof.
move=> sigma_neq0; rewrite rbf_kernelE => -[<-] i i' j j' le_d.
by rewrite !mxE; exact: K_mono.
Qed.

Lemma X3_witness :
  (1 <> 0)%Re
  /\ exists k : 'M[R]_(1, 2),
       rbf_kernel [:: 0%Re] [:: 1; 2]%Re 1 = Ok k
       /\ (k ord0 (lift ord0 ord0) <= k ord0 ord0)%Re.
Proof.
split; first exact: R1_neq_R0.
eexists; split; first exact: rbf_kernelE.
apply: (@X3_kernel_decreasing [:: 0%Re] [:: 1; 2]%Re 1 _ R1_neq_R0
          (rbf_kernelE _ _ _)).
rewrite /= !Rabs_left1; Lra.lra.
Defined.



(* ===================================================================== *)
(* 19. Properties of the posterior                                       *)
(* ===================================================================== *)






(** X7: the posterior mean is linear in the observed values and the
    posterior covariance does not depend on them: for observations
    c * y1 + y2 (entry by entry) fitted_gaus returns c * mean1 + mean2 and
    the covariance it returns for y1, which is also the one for y2. *)
Theorem X7_mean_linear_in_observations
    (X prev_x y1 y2 : seq R) (noise c : R) (mean1 mean2 : seq R)
    (cov1 cov2 : 'M[R]_(size X)) :
  fitted_gaus X prev_x y1 noise = Ok (mean1, cov1) ->
  fitted_gaus X prev_x y2 noise = Ok (mean2, cov2) ->
  cov2 = cov1
  /\ fitted_gaus X prev_x (map2 (fun a b => (c * a + b)%Re) y1 y2) noise
     = Ok (map2 (fun a b => (c * a + b)%Re) mean1 mean2, cov1).
Proof.
rewrite !fitted_gausE; case: ifP => // _.
case: eqP => // size1 [<- <-]; case: eqP => // size2 [<- <-]; split=> //.
rewrite size_map2 size1 size2 minnn eqxx map2_map; congr (Ok (_, _)).
by apply: eq_map => i; exact: posterior_mean_linear.
Qed.

Lemma X7_witness :
  exists (mean1 mean2 : seq R) (cov1 cov2 : 'M[R]_1),
    [/\ fitted_gaus [:: 0%Re] [:: 1%Re] [:: 2%Re] 1 = Ok (mean1, cov1),
        fitted_gaus [:: 0%Re] [:: 1%Re] [:: 5%Re] 1 = Ok (mean2, cov2),
        cov2 = cov1
      & fitted_gaus [:: 0%Re] [:: 1%Re]
          (map2 (fun a b => (3 * a + b)%Re) [:: 2%Re] [:: 5%Re]) 1
        = Ok (map2 (fun a b => (3 * a + b)%Re) mean1 mean2, cov1)].
Proof.
have eq1 : fitted_gaus [:: 0%Re] [:: 1%Re] [:: 2%Re] 1
           = Ok ([seq posterior_mean [:: 0%Re] [:: 1%Re] [:: 2%Re] 1 i
                 | i <- enum 'I_1],
                 \matrix_(i, j) posterior_cov [:: 0%Re] [:: 1%Re] 1 i j).
  by rewrite fitted_gausE Sigma_oo_unit1.
have eq2 : fitted_gaus [:: 0%Re] [:: 1%Re] [:: 5%Re] 1
           = Ok ([seq posterior_mean [:: 0%Re] [:: 1%Re] [:: 5%Re] 1 i
                 | i <- enum 'I_1],
                 \matrix_(i, j) posterior_cov [:: 0%Re] [:: 1%Re] 1 i j).
  by rewrite fitted_gausE Sigma_oo_unit1.
have [eq_cov eq_sum] := X7_mean_linear_in_observations 3 eq1 eq2.
by eexists; eexists; eexists; eexists; split; [exact: eq1 | exact: eq2 | |].
Defined.











(** X13: the noise level enters the posterior and the three acquisition
    functions only through its square: a negative noise gives the same
    result as its absolute value. *)
Theorem X13_noise_enters_squared
    (X prev_x prev_y : seq R) (noise param : R) :
  [/\ fitted_gaus X prev_x prev_y (- noise) = fitted_gaus X prev_x prev_y noise,
      exp_imp X prev_x prev_y (- noise) param
      = exp_imp X prev_x prev_y noise param,
      prob_imp X prev_x prev_y (- noise) param
      = prob_imp X prev_x prev_y noise param
    & upper_conf_bound X prev_x prev_y (- noise) param
      = upper_conf_bound X prev_x prev_y noise param].
Proof.
have even Q : fitted_gaus Q prev_x prev_y (- noise)
              = fitted_gaus Q prev_x prev_y noise.
  rewrite /fitted_gaus.
  by have -> : ((- noise) ^ 2 = noise ^ 2)%Re by ring.
by rewrite /exp_imp /prob_imp /upper_conf_bound !even.
Qed.

(* ===================================================================== *)
(* 20. Properties of the acquisition functions                           *)
(* ===================================================================== *)







(** X17: with no observation at all exp_imp and prob_imp raise ValueError
    (the maximum of the empty array of posterior means), whereas
    upper_conf_bound returns the same score kappa at every candidate. *)
Theorem X17_no_observation (X : seq R) (noise param : R) :
  [/\ exp_imp X [::] [::] noise param = Raise ValueError,
      prob_imp X [::] [::] noise param = Raise ValueError
    & upper_conf_bound X [::] [::] noise param
      = Ok (nseq (size X) (Fin param))].
Proof.
have unit_oo : Sigma_oo [::] noise \in unitmx by exact: unitmx00.
split.
- by rewrite /exp_imp !fitted_gaus_Ok //= enum_ord0.
- by rewrite /prob_imp !fitted_gaus_Ok //= enum_ord0.
rewrite upper_conf_boundE //; congr Ok.
apply: (@eq_from_nth _ NaN) => [|i]; first by rewrite size_ord_map size_nseq.
rewrite size_ord_map => lt_i; rewrite nth_nseq lt_i.
rewrite (nth_map (Ordinal lt_i)) ?size_enum_ord //.
rewrite /posterior_mean /posterior_cov !big_ord0 mxE K_diag.
have -> : np_sqrt (1 - 0) = Fin 1.
  rewrite /np_sqrt; case: RltbP => [lt0|_]; first by move: lt0; toR; Lra.lra.
  by congr Fin; rewrite -[RHS]sqrt_1; congr sqrt; toR; ring.
by rewrite /=; congr Fin; toR; ring.
Qed.



(** X19: when one of the three acquisition functions returns, it returns
    exactly one score per candidate, so the candidate at the arg-max of
    the scores exists: xs[np.argmax(probas)] never raises IndexError. *)
Theorem X19_one_score_per_candidate
    (acq : acquisition) (X prev_x prev_y : seq R) (noise param : R)
    (scores : seq npfloat) :
  script_acquisition acq ->
  acq X prev_x prev_y noise param = Ok scores ->
  size scores = size X
  /\ forall k, argmax scores = Ok k -> getitem X k = Ok (nth 0%Re X k).
Proof.
move=> acq_script eq_scores; have eq_size := acq_size acq_script eq_scores.
split=> // k /argmax_spec [lt_k _ _].
by rewrite /getitem -eq_size lt_k.
Qed.

Lemma X19_witness :
  exists scores,
    [/\ upper_conf_bound [:: 0; 1]%Re [:: 0%Re] [:: 1%Re] 1 10 = Ok scores,
        size scores = 2
      & forall k, argmax scores = Ok k ->
          getitem [:: 0; 1]%Re k = Ok (nth 0%Re [:: 0; 1]%Re k)].
Proof.
have eq_scores :=
  @upper_conf_boundE [:: 0; 1]%Re [:: 0%Re] [:: 1%Re] 1 (erefl _)
    (Sigma_oo_unit1 0 1) 10.
have [size_scores in_range] :=
  @X19_one_score_per_candidate upper_conf_bound [:: 0; 1]%Re [:: 0%Re]
    [:: 1%Re] 1 10 _ (Or33 _ _ (erefl _)) eq_scores.
by eexists; split; [exact: eq_scores | exact: size_scores | exact: in_range].
Defined.



(* ===================================================================== *)
(* 21. Properties of the loop and of the grid                            *)
(* ===================================================================== *)



(** X22: np.linspace(start, stop, num) with num > 1 and start < stop is a
    strictly increasing array of num points whose first element is start
    and whose last element is stop; in particular the 100 candidates of
    the grid are pairwise distinct, from 0 to 10. *)
Theorem X22_linspace_increasing (start stop : R) (num : nat) :
  (1 < num)%N -> (start < stop)%Re ->
  [/\ size (linspace start stop num) = num,
      nth 0%Re (linspace start stop num) 0 = start,
      nth 0%Re (linspace start stop num) num.-1 = stop
    & forall k l, (k < l)%N -> (l < num)%N ->
        (nth 0 (linspace start stop num) k
         < nth 0 (linspace start stop num) l)%Re].
Proof.
move=> num_gt1 lt_ab.
have num_gt0 : (0 < num)%N by exact: ltnW.
have pred_lt : (num.-1 < num)%N by rewrite prednK.
have n1_neq0 := INR_pred_neq0 num_gt1.
have n1_gt0 : (0 < INR num.-1)%Re.
  by apply: lt_0_INR; apply/ltP; rewrite -subn1 subn_gt0.
have step_gt0 : (0 < (stop - start) / INR num.-1)%Re.
  by apply: Rdiv_lt_0_compat => //; Lra.lra.
split.
- exact: size_linspace.
- by rewrite nth_linspace //=; ring.
- by rewrite nth_linspace //; field.
move=> k l lt_kl lt_l; have lt_k : (k < num)%N by exact: ltn_trans lt_kl lt_l.
rewrite !nth_linspace //.
have lt_INR : (INR k < INR l)%Re by apply: lt_INR; apply/ltP.
by apply: Rplus_lt_compat_l; apply: Rmult_lt_compat_r.
Qed.

Lemma X22_witness :
  [/\ size grid = 100, nth 0%Re grid 0 = 0%Re, nth 0%Re grid 99 = 10%Re
    & forall k l, (k < l)%N -> (l < 100)%N ->
        (nth 0 grid k < nth 0 grid l)%Re].
Proof.
have lt_0_10 : (0 < 10)%Re by Lra.lra.
exact: (@X22_linspace_increasing 0 10 100 (erefl _) lt_0_10).
Defined.

(* ===================================================================== *)
(* 22. Properties of the script with its effects                         *)
(* ===================================================================== *)

(** X23: what objective_function returns never depends on its noise
    argument nor on the variate it draws: for noise >= 0 it is the
    noise-free value -(sin(x*x) - x**(2*sin(x))), at the cost of one draw
    from the generator; for noise < 0 the draw raises ValueError. *)
Theorem X23_objective_ignores_noise
    (z : nat -> R) (x noise : R) (w : Eff.world) :
  ((0 <= noise)%Re ->
   Eff.objective_function z x noise w
   = Eff.Done (- (sin (x * x) - np_power x (2 * sin x)))%Re
       (Eff.World (Eff.drawn w).+1 (Eff.calls w)))
  /\ ((noise < 0)%Re ->
      Eff.objective_function z x noise w = Eff.Failed (Eff.NumPy ValueError)).
Proof.
rewrite objective_functionE; split=> [noise_ge0|noise_lt0].
  case: RltbP => [noise_lt0|_]; first by Lra.lra.
  by rewrite /advance addn1 cats0.
by case: RltbP.
Qed.

Lemma X23_witness :
  Eff.objective_function (fun _ => 1%Re) 0 (1 / 10)%Re (Eff.World 0 [::])
  = Eff.Done (- (sin (0 * 0) - np_power 0 (2 * sin 0)))%Re (Eff.World 1 [::])
  /\ Eff.objective_function (fun _ => 1%Re) 0 (- 1)%Re (Eff.World 0 [::])
     = Eff.Failed (Eff.NumPy ValueError).
Proof.
have tenth_ge0 : (0 <= 1 / 10)%Re by Lra.lra.
have m1_lt0 : (- 1 < 0)%Re by Lra.lra.
have [at_tenth _] :=
  X23_objective_ignores_noise (fun _ => 1%Re) 0 (1 / 10)%Re (Eff.World 0 [::]).
have [_ at_m1] :=
  X23_objective_ignores_noise (fun _ => 1%Re) 0 (- 1)%Re (Eff.World 0 [::]).
by split; [exact: at_tenth | exact: at_m1].
Defined.

(** X24: for a positive noise level the run with its effects (draws from
    the generator, calls to pyplot) returns, and returns the X and Y of the
    run without them; for a negative noise level it fails at once with
    ValueError, raised by np.random.normal for the first observation. *)
Theorem X24_run_with_effects
    (z : nat -> R) (empty_array_truth : result bool)
    (acq : acquisition) (noise param : R) (print_seed : bool) (x0 : R)
    (w : Eff.world) :
  script_acquisition acq ->
  ((0 < noise)%Re ->
   exists X Y w',
     run empty_array_truth acq noise param x0 = Ok (X, Y)
     /\ Eff.run z empty_array_truth acq noise param print_seed x0 w
        = Eff.Done (X, Y) w')
  /\ ((noise < 0)%Re ->
      Eff.run z empty_array_truth acq noise param print_seed x0 w
      = Eff.Failed (Eff.NumPy ValueError)).
Proof.
move=> acq_script; split=> [noise_gt0|noise_lt0].
  have [X [Y [k [es [pure eff _ _]]]]] :=
    run_sim z empty_array_truth param acq_script noise_gt0 print_seed x0 w.
  by exists X, Y, (advance k es w).
rewrite /Eff.run /Eff.ebind [Eff.for_each _ _ _]/(Eff.ebind _ _ _).
by rewrite /Eff.ebind objective_functionE; case: RltbP.
Qed.

Lemma X24_witness :
  (exists X Y w',
     ei_run (Ok false) 5 = Ok (X, Y)
     /\ Eff.ei_run (fun _ => 0%Re) (Ok false) 5 (Eff.World 0 [::])
        = Eff.Done (X, Y) w')
  /\ Eff.run (fun _ => 0%Re) (Ok false) exp_imp (- 1)%Re (1 / 10)%Re false 5
       (Eff.World 0 [::])
     = Eff.Failed (Eff.NumPy ValueError).
Proof.
have tenth_gt0 : (0 < 1 / 10)%Re by Lra.lra.
have m1_lt0 : (- 1 < 0)%Re by Lra.lra.
have [at_tenth _] :=
  @X24_run_with_effects (fun _ => 0%Re) (Ok false) exp_imp (1 / 10)%Re
    (1 / 10)%Re false 5 (Eff.World 0 [::]) (Or31 _ _ (erefl _)).
have [_ at_m1] :=
  @X24_run_with_effects (fun _ => 0%Re) (Ok false) exp_imp (- 1)%Re
    (1 / 10)%Re false 5 (Eff.World 0 [::]) (Or31 _ _ (erefl _)).
by split; [exact: at_tenth | exact: at_m1].
Defined.

(** X25: a run with positive noise stores, for every x it has sampled, the
    exact value of the objective at that x: Y[k] is
    -(sin(x*x) - x**(2*sin(x))) at x = X[k] for every k, the seed
    included; no noise is ever added to an observation. *)
Theorem X25_observations_are_noise_free
    (z : nat -> R) (empty_array_truth : result bool)
    (acq : acquisition) (noise param : R) (print_seed : bool) (x0 : R)
    (w : Eff.world) :
  script_acquisition acq -> (0 < noise)%Re ->
  exists X Y w',
    Eff.run z empty_array_truth acq noise param print_seed x0 w
    = Eff.Done (X, Y) w'
    /\ Y = [seq (- (sin (x * x) - np_power x (2 * sin x)))%Re | x <- X].
Proof.
move=> acq_script noise_gt0.
have [X [Y [k [es [pure eff _ _]]]]] :=
  run_sim z empty_array_truth param acq_script noise_gt0 print_seed x0 w.
exists X, Y, (advance k es w); split=> //.
exact: (run_consistent acq_script noise_gt0 pure).
Qed.

Lemma X25_witness :
  (0 < 1 / 10)%Re
  /\ exists X Y w',
       Eff.pi_run (fun _ => 1%Re) (Ok false) 5 (Eff.World 0 [::])
       = Eff.Done (X, Y) w'
       /\ Y = [seq (- (sin (x * x) - np_power x (2 * sin x)))%Re | x <- X].
Proof.
have tenth_gt0 : (0 < 1 / 10)%Re by Lra.lra.
split=> //.
exact: (@X25_observations_are_noise_free (fun _ => 1%Re) (Ok false) prob_imp
          (1 / 10)%Re 1 false 5 (Eff.World 0 [::]) (Or32 _ _ (erefl _))
          tenth_gt0).
Defined.

(** X26: a run with positive noise writes the frames ./frames/0.png to
    ./frames/22.png in this order, one per pass of the loop, and then
    writes ./frames/22.png a second time: the plot made after the loop
    replaces the frame of the last pass. *)
Theorem X26_last_frame_written_twice
    (z : nat -> R) (empty_array_truth : result bool)
    (acq : acquisition) (noise param : R) (print_seed : bool) (x0 : R)
    (w : Eff.world) :
  script_acquisition acq -> (0 < noise)%Re ->
  exists X Y w',
    Eff.run z empty_array_truth acq noise param print_seed x0 w
    = Eff.Done (X, Y) w'
    /\ saved w'
       = saved w ++ [seq Text.frame_path i | i <- iota 0 23]
         ++ [:: Text.frame_path 22].
Proof.
move=> acq_script noise_gt0.
have [X [Y [k [es [_ eff saved_es _]]]]] :=
  run_sim z empty_array_truth param acq_script noise_gt0 print_seed x0 w.
exists X, Y, (advance k es w); split=> //.
by rewrite saved_advance saved_es.
Qed.

Lemma X26_witness :
  (0 < 1 / 10)%Re
  /\ exists X Y w',
       Eff.ucb_run (fun _ => 0%Re) (Ok false) 5 (Eff.World 0 [::])
       = Eff.Done (X, Y) w'
       /\ saved w'
          = [seq Text.frame_path i | i <- iota 0 23]
            ++ [:: Text.frame_path 22].
Proof.
have tenth_gt0 : (0 < 1 / 10)%Re by Lra.lra.
split=> //.
exact: (@X26_last_frame_written_twice (fun _ => 0%Re) (Ok false)
          upper_conf_bound (1 / 10)%Re 10 true 5 (Eff.World 0 [::])
          (Or33 _ _ (erefl _)) tenth_gt0).
Defined.

(** X27: the line that reports where the objective is maximized prints
    new_x, the point sampled by the last pass of the loop: after a run with
    positive noise the value reported is the last element of X, whatever
    the values observed at the sampled points are (the two ffmpeg
    processes started before that line are not part of the model). *)
Theorem X27_reports_last_sample
    (z : nat -> R) (empty_array_truth : result bool)
    (acq : acquisition) (noise param : R) (print_seed : bool) (x0 : R)
    (w : Eff.world) :
  script_acquisition acq -> (0 < noise)%Re ->
  exists X Y w',
    Eff.run z empty_array_truth acq noise param print_seed x0 w
    = Eff.Done (X, Y) w'
    /\ reported w' = reported w ++ [:: last 0%Re X].
Proof.
move=> acq_script noise_gt0.
have [X [Y [k [es [_ eff _ result_es]]]]] :=
  run_sim z empty_array_truth param acq_script noise_gt0 print_seed x0 w.
exists X, Y, (advance k es w); split=> //.
by rewrite reported_advance result_es.
Qed.

Lemma X27_witness :
  (0 < 1 / 10)%Re
  /\ exists X Y w',
       Eff.ei_run (fun _ => 0%Re) (Ok false) 5 (Eff.World 0 [::])
       = Eff.Done (X, Y) w'
       /\ reported w' = [:: last 0%Re X].
Proof.
have tenth_gt0 : (0 < 1 / 10)%Re by Lra.lra.
split=> //.
exact: (@X27_reports_last_sample (fun _ => 0%Re) (Ok false) exp_imp
          (1 / 10)%Re (1 / 10)%Re false 5 (Eff.World 0 [::])
          (Or31 _ _ (erefl _)) tenth_gt0).
Defined.

(** X28: save_plot ignores its legend argument: it does exactly the same
    with legend=False as with legend=True, and every frame it completes
    has the legend drawn once. *)
Theorem X28_legend_argument_ignored
    (z : nat -> R) (empty_array_truth : result bool)
    (X Y : seq R) (noise : R) (title : String.string)
    (obj gaus legend : bool) (new_x : pyval) (i : nat) (w w' : Eff.world) :
  Eff.save_plot z empty_array_truth X Y noise title obj gaus legend new_x i w
  = Eff.Done tt w' ->
  Eff.save_plot z empty_array_truth X Y noise title obj gaus (~~ legend)
    new_x i w
  = Eff.Done tt w'
  /\ count is_legend (Eff.calls w') = (count is_legend (Eff.calls w)).+1.
Proof.
move=> eq_w'; split; first exact: eq_w'.
have [line [es [_ -> [_ _ _ legend_es]]]] := save_plot_inv eq_w'.
by rewrite /advance /= count_cat legend_es addn1.
Qed.

Lemma X28_witness :
  exists w',
    [/\ Eff.save_plot (fun _ => 0%Re) (Ok false) [::] [::] 1
          String.EmptyString true true false PyNone 0 (Eff.World 0 [::])
        = Eff.Done tt w',
        Eff.save_plot (fun _ => 0%Re) (Ok false) [::] [::] 1
          String.EmptyString true true (~~ false) PyNone 0 (Eff.World 0 [::])
        = Eff.Done tt w'
      & count is_legend (Eff.calls w') = 1].
Proof.
have [es [eq_w' _]] :=
  @save_plot_done (fun _ => 0%Re) (Ok false) [::] [::] 1 String.EmptyString
    true true false PyNone 0 false (Eff.World 0 [::]) (save_plot_empty _ 1)
    (erefl _).
have [same_w' legend_w'] := X28_legend_argument_ignored eq_w'.
by eexists; split; [exact: eq_w' | exact: same_w' | exact: legend_w'].
Defined.

(** X29: save_plot tests `if new_x:` and not `new_x is not None`: for a
    float new_x the dashed vertical line is drawn when new_x <> 0 and is
    left out when new_x is 0.0, the first point of the candidate grid. *)
Theorem X29_no_line_at_zero
    (z : nat -> R) (empty_array_truth : result bool)
    (X Y : seq R) (noise : R) (title : String.string)
    (obj gaus legend : bool) (x : R) (i : nat) (w w' : Eff.world) :
  Eff.save_plot z empty_array_truth X Y noise title obj gaus legend
    (PyFloat x) i w
  = Eff.Done tt w' ->
  count is_axvline (Eff.calls w')
  = (count is_axvline (Eff.calls w) + (x != 0%Re))%N.
Proof.
move=> eq_w'.
have [line [es [[<-] -> [_ _ line_es _]]]] := save_plot_inv eq_w'.
by rewrite /advance /= count_cat line_es.
Qed.

Lemma X29_witness :
  exists w',
    Eff.save_plot (fun _ => 0%Re) (Ok false) [::] [::] 1 String.EmptyString
      false true true (PyFloat 0) 4 (Eff.World 0 [::])
    = Eff.Done tt w'
    /\ count is_axvline (Eff.calls w') = (0 + (0%Re != 0%Re))%N.
Proof.
have [es [eq_w' _]] :=
  @save_plot_done (fun _ => 0%Re) (Ok false) [::] [::] 1 String.EmptyString
    false true true (PyFloat 0) 4 (0%Re != 0) (Eff.World 0 [::])
    (save_plot_empty_float _ 1 0) (erefl _).
by eexists; split; [exact: eq_w' | exact: (X29_no_line_at_zero eq_w')].
Defined.

(** X30: the pass i == 3 gives the array X itself as new_x, which
    `if new_x:` accepts only for an array of one element: with two
    observations or more (and noise <> 0, so that the posterior is
    computed) the pass raises ValueError. *)
Theorem X30_pass_three_needs_one_point
    (z : nat -> R) (empty_array_truth : result bool)
    (acq : acquisition) (noise param : R) (X Y : seq R) (new_x : option R)
    (w : Eff.world) :
  noise <> 0 -> size X = size Y -> (1 < size X)%N ->
  Eff.loop_body z empty_array_truth acq noise param 3 (X, Y, new_x) w
  = Eff.Failed (Eff.NumPy ValueError).
Proof.
move=> noise_neq0 eq_size X_gt1.
rewrite /Eff.loop_body /Eff.ebind /= save_plotE.
rewrite fitted_gausE Sigma_oo_unit // eq_size eqxx.
by case: (X) X_gt1 => [|x0 [|x1 s]].
Qed.

Lemma X30_witness :
  Eff.loop_body (fun _ => 0%Re) (Ok false) exp_imp 1 1 3
    ([:: 0; 1]%Re, [:: 0; 1]%Re, None) (Eff.World 0 [::])
  = Eff.Failed (Eff.NumPy ValueError).
Proof.
exact: (@X30_pass_three_needs_one_point (fun _ => 0%Re) (Ok false) exp_imp
          1 1 [:: 0; 1]%Re [:: 0; 1]%Re None (Eff.World 0 [::])
          R1_neq_R0 (erefl _) (erefl _)).
Defined.

